(** * Shallow embedding of parts of the Fyne toolkit

    Four source units are embedded:
    - [internal/painter/gl/shaders/rectangle_es.frag]: the fragment shader
      that colours a stroked rectangle (module [shaders]);
    - the [commands] package: [Builder.Build], [Builder.build],
      [checkVersion], [checkGoVersion], [targetOS] (module [commands]);
    - [test/theme.go]: the [configurableTheme] accessors (module [test]);
    - [lang/lang.go]: [LocalizeKey], [LocalizePluralKey] and
      [fallbackWithData] (module [lang]).

    Part I holds the definitions, Part II the theorems. *)

From Stdlib Require Import ZArith QArith Qminmax Lqa List Bool Ascii String.
From Stdlib Require Import Floats.SpecFloat.
From Stdlib Require OrderedTypeEx.
From stdpp Require Import gmap strings.

Import ListNotations.
Local Open Scope string_scope.
Local Open Scope list_scope.

(* ===================================================================== *)
(** * Part I: definitions *)
(* ===================================================================== *)

(** ** The rectangle fragment shader *)

Module shaders.

(** GLSL [vec4]; [v[i]] is [idx v i]. *)
Record vec4 (F : Type) : Type := Vec4 { vx : F; vy : F; vz : F; vw : F }.
Arguments Vec4 {F} _ _ _ _.
Arguments vx {F} _.
Arguments vy {F} _.
Arguments vz {F} _.
Arguments vw {F} _.

Definition idx {F : Type} (v : vec4 F) (i : nat) : F :=
  match i with
  | 0%nat => vx v
  | 1%nat => vy v
  | 2%nat => vz v
  | _ => vw v
  end.

(** The operations the shader applies to GLSL [float] values.  The shader
    is written once against this interface; it is instantiated below with
    exact rational arithmetic and with IEEE-754 binary32. *)
Class GLfloat (F : Type) : Type := {
  fadd : F -> F -> F;
  fsub : F -> F -> F;
  fle : F -> F -> bool;
  fge : F -> F -> bool
}.

(** The uniforms declared at lines 14-19. *)
Record uniforms (F : Type) : Type := Uniforms {
  frame_size : vec4 F;    (* width = x, height = y *)
  rect_coords : vec4 F;   (* x1 [0], x2 [1], y1 [2], y2 [3] *)
  stroke_width : F;
  fill_color : vec4 F;
  stroke_color : vec4 F
}.
Arguments Uniforms {F} _ _ _ _ _.
Arguments frame_size {F} _.
Arguments rect_coords {F} _.
Arguments stroke_width {F} _.
Arguments fill_color {F} _.
Arguments stroke_color {F} _.

Section Shader.
Context {F : Type} `{GLfloat F}.

(** [main], lines 22-37: the function from [gl_FragCoord] (and the
    uniforms) to [gl_FragColor].  [a - b + c] and [a - b - c] associate to
    the left, as in GLSL. *)
Definition main (u : uniforms F) (gl_FragCoord : vec4 F) : vec4 F :=
  let color := fill_color u in
  let color :=
    if fge (vx gl_FragCoord) (fsub (idx (rect_coords u) 1) (stroke_width u))
    then stroke_color u
    else if fle (vx gl_FragCoord) (fadd (idx (rect_coords u) 0) (stroke_width u))
    then stroke_color u
    else if fle (vy gl_FragCoord)
                (fadd (fsub (vy (frame_size u)) (idx (rect_coords u) 3)) (stroke_width u))
    then stroke_color u
    else if fge (vy gl_FragCoord)
                (fsub (fsub (vy (frame_size u)) (idx (rect_coords u) 2)) (stroke_width u))
    then stroke_color u
    else color in
  color.

(** The four conditions of the if/else-if chain, named after the edge of
    the rectangle they test (top and bottom as the user interface sees
    them: [y1] is the top edge, drawn at GPU height [frame_size.y - y1]). *)
Definition hit_right (u : uniforms F) (x : F) : bool :=
  fge x (fsub (idx (rect_coords u) 1) (stroke_width u)).

Definition hit_left (u : uniforms F) (x : F) : bool :=
  fle x (fadd (idx (rect_coords u) 0) (stroke_width u)).

Definition hit_bottom (u : uniforms F) (y : F) : bool :=
  fle y (fadd (fsub (vy (frame_size u)) (idx (rect_coords u) 3)) (stroke_width u)).

Definition hit_top (u : uniforms F) (y : F) : bool :=
  fge y (fsub (fsub (vy (frame_size u)) (idx (rect_coords u) 2)) (stroke_width u)).

End Shader.

(** Exact arithmetic: GLSL floats idealised as rationals.  The shader on
    rationals agrees with the shader on floats only where the floats
    round nothing away; [exact_bounds] below states when that is so. *)
#[export] Instance Q_GLfloat : GLfloat Q := {
  fadd := Qplus;
  fsub := Qminus;
  fle := Qle_bool;
  fge := fun a b => Qle_bool b a
}.

(** IEEE-754 binary32 (24-bit significand, [emax = 128]), the usual
    realisation of [highp float]. *)
#[export] Instance b32_GLfloat : GLfloat spec_float := {
  fadd := SFadd 24 128;
  fsub := SFsub 24 128;
  fle := SFleb;
  fge := fun a b => SFleb b a
}.

(** [m * 2^e] as a binary32 value. *)
Definition b32 (m e : Z) : spec_float := binary_normalize 24 128 m e false.

(** *** Vocabulary of the specification, over exact arithmetic *)

Local Open Scope Q_scope.

Definition x1 (u : uniforms Q) : Q := idx (rect_coords u) 0.
Definition x2 (u : uniforms Q) : Q := idx (rect_coords u) 1.
Definition y1 (u : uniforms Q) : Q := idx (rect_coords u) 2.
Definition y2 (u : uniforms Q) : Q := idx (rect_coords u) 3.

(** Heights of the rectangle's top and bottom edges in fragment space,
    whose origin is the bottom-left corner of the frame. *)
Definition gl_top (u : uniforms Q) : Q := vy (frame_size u) - y1 u.
Definition gl_bottom (u : uniforms Q) : Q := vy (frame_size u) - y2 u.

(** The fragment lies inside the rectangle. *)
Definition inside (u : uniforms Q) (f : vec4 Q) : Prop :=
  (x1 u <= vx f /\ vx f <= x2 u) /\ (gl_bottom u <= vy f /\ vy f <= gl_top u).

(** [a] lies within distance [w] of [b]. *)
Definition within (w a b : Q) : Prop := a - b <= w /\ b - a <= w.

(** The fragment lies within [stroke_width] of one of the four edges, the
    distance being taken along the axis across the edge. *)
Definition near_edge (u : uniforms Q) (f : vec4 Q) : Prop :=
  within (stroke_width u) (vx f) (x1 u) \/
  within (stroke_width u) (vx f) (x2 u) \/
  within (stroke_width u) (vy f) (gl_top u) \/
  within (stroke_width u) (vy f) (gl_bottom u).

(** The comparisons the shader makes: each is one-sided, it bounds the
    fragment on the inner side of the edge only. *)
Definition in_band (u : uniforms Q) (f : vec4 Q) : Prop :=
  x2 u - stroke_width u <= vx f \/
  vx f <= x1 u + stroke_width u \/
  vy f <= gl_bottom u + stroke_width u \/
  gl_top u - stroke_width u <= vy f.

Definition red : vec4 Q := Vec4 1 0 0 1.
Definition black : vec4 Q := Vec4 0 0 0 1.

(** The scenario of the specification: a 100 x 50 rectangle filling a
    100 x 50 frame, stroke width 2, red fill, black stroke. *)
Definition scenario : uniforms Q :=
  Uniforms (Vec4 100 50 0 0) (Vec4 0 100 0 50) 2 red black.

(** The same scenario in binary32, and the centre of pixel [(i, j)]. *)
Definition red32 : vec4 spec_float := Vec4 (b32 1 0) (b32 0 0) (b32 0 0) (b32 1 0).
Definition black32 : vec4 spec_float := Vec4 (b32 0 0) (b32 0 0) (b32 0 0) (b32 1 0).

Definition scenario32 : uniforms spec_float :=
  Uniforms (Vec4 (b32 100 0) (b32 50 0) (b32 0 0) (b32 0 0))
           (Vec4 (b32 0 0) (b32 100 0) (b32 0 0) (b32 50 0))
           (b32 2 0) red32 black32.

Definition centre32 (i j : nat) : vec4 spec_float :=
  Vec4 (b32 (2 * Z.of_nat i + 1) (-1)) (b32 (2 * Z.of_nat j + 1) (-1))
       (b32 0 0) (b32 1 0).

(** All pixels of a [w] x [h] frame, row by row. *)
Definition pixels (w h : nat) : list (nat * nat) :=
  flat_map (fun j => map (fun i => (i, j)) (seq 0 w)) (seq 0 h).

(** A rectangle strictly inside its frame, and a fragment of the frame to
    the left of it. *)
Definition small_rect : uniforms Q :=
  Uniforms (Vec4 100 100 0 0) (Vec4 10 20 10 20) 1 red black.

Definition left_of_small_rect : vec4 Q := Vec4 (1 # 2) (171 # 2) 0 1.

(** The scenario with the fill painted in the stroke colour, and the
    fragment at the centre of the frame. *)
Definition one_colour : uniforms Q :=
  Uniforms (Vec4 100 50 0 0) (Vec4 0 100 0 50) 2 black black.

Definition mid_frame : vec4 Q := Vec4 50 25 0 1.




(** Uniforms whose frame height, rectangle and stroke width are whole
    numbers of device pixels. *)
Definition pixel_rect (fh px1 px2 py1 py2 : Z) (sw : nat) (fill stroke : vec4 Q)
  : uniforms Q :=
  Uniforms (Vec4 0 (inject_Z fh) 0 0)
           (Vec4 (inject_Z px1) (inject_Z px2) (inject_Z py1) (inject_Z py2))
           (inject_Z (Z.of_nat sw)) fill stroke.

(** *** Further vocabulary: other stroke widths, user-interface
    coordinates *)


(** In user-interface coordinates: within [stroke_width] of an edge, on
    its inner side. *)
Definition ui_band (u : uniforms Q) (x y : Q) : Prop :=
  x2 u - stroke_width u <= x \/ x <= x1 u + stroke_width u \/
  y2 u - stroke_width u <= y \/ y <= y1 u + stroke_width u.

(** *** Binary32 values *)

(** The number a binary32 value denotes, counted in units of [2^-149]
    (the least positive binary32 number), and as a rational.  Infinities
    and NaN denote no number and are given 0; [finite32] tells the zeros
    and the valid finite values from them. *)
Definition B2Z (x : spec_float) : Z :=
  match x with
  | S754_finite s m e => cond_Zopp s (Zpos m * 2 ^ (e + 149))
  | _ => 0
  end%Z.

Definition val (x : spec_float) : Q := B2Z x # (2 ^ 149).

Definition finite32 (x : spec_float) : bool :=
  match x with
  | S754_zero _ => true
  | S754_finite _ m e => bounded 24 128 m e
  | _ => false
  end.

Definition val4 (v : vec4 spec_float) : vec4 Q :=
  Vec4 (val (vx v)) (val (vy v)) (val (vz v)) (val (vw v)).

Definition valu (u : uniforms spec_float) : uniforms Q :=
  Uniforms (val4 (frame_size u)) (val4 (rect_coords u)) (val (stroke_width u))
           (val4 (fill_color u)) (val4 (stroke_color u)).

(** [v], in units of [2^-149], is a binary32 number: it is below [2^128]
    and has no bit more than 23 places below its leading bit. *)
Definition representable32 (v : Z) : bool :=
  ((Z.abs v <? 2 ^ 277) && (Z.abs v mod 2 ^ Z.max (Z.log2 (Z.abs v) - 23) 0 =? 0))%Z.

(** The float [x] is the number [q]: the computation that produced it
    rounded nothing away. *)
Definition exact (x : spec_float) (q : Q) : bool := finite32 x && Qeq_bool (val x) q.

(** The frame height, the rectangle and the stroke width are binary32
    numbers, and the four bounds the shader computes from them are
    computed without rounding error. *)
Definition exact_bounds (u : uniforms spec_float) : bool :=
  finite32 (vy (frame_size u)) && finite32 (stroke_width u) &&
  finite32 (idx (rect_coords u) 0) && finite32 (idx (rect_coords u) 1) &&
  finite32 (idx (rect_coords u) 2) && finite32 (idx (rect_coords u) 3) &&
  exact (fsub (idx (rect_coords u) 1) (stroke_width u))
        (x2 (valu u) - stroke_width (valu u)) &&
  exact (fadd (idx (rect_coords u) 0) (stroke_width u))
        (x1 (valu u) + stroke_width (valu u)) &&
  exact (fadd (fsub (vy (frame_size u)) (idx (rect_coords u) 3)) (stroke_width u))
        (gl_bottom (valu u) + stroke_width (valu u)) &&
  exact (fsub (fsub (vy (frame_size u)) (idx (rect_coords u) 2)) (stroke_width u))
        (gl_top (valu u) - stroke_width (valu u)).

(** The centre of pixel column (or row) [i], and the fragment at the
    centre of pixel [(i, j)]. *)
Definition pixel_centre32 (i : Z) : spec_float := b32 (2 * i + 1) (-1).

Definition pixel32 (i j : Z) : vec4 spec_float :=
  Vec4 (pixel_centre32 i) (pixel_centre32 j) (b32 0 0) (b32 1 0).

(** [count_hits] in binary32. *)
Definition count_hits32 (test : spec_float -> bool) (lo : Z) (n : nat) : nat :=
  length (List.filter (fun k => test (pixel_centre32 (lo + Z.of_nat k))) (seq 0 n)).

(** [pixel_rect] in binary32, in a frame of [fw] x [fh] pixels. *)
Definition pixel_rect32 (fw fh px1 px2 py1 py2 : Z) (sw : nat)
    (fill stroke : vec4 spec_float) : uniforms spec_float :=
  Uniforms (Vec4 (b32 fw 0) (b32 fh 0) (b32 0 0) (b32 0 0))
           (Vec4 (b32 px1 0) (b32 px2 0) (b32 py1 0) (b32 py2 0))
           (b32 (Z.of_nat sw) 0) fill stroke.

(** The float [x] is the whole number [n], or the pixel centre
    [i + 1/2]. *)
Definition is_int32 (x : spec_float) (n : Z) : Prop :=
  finite32 x = true /\ B2Z x = (n * 2 ^ 149)%Z.

Definition is_centre32 (x : spec_float) (i : Z) : Prop :=
  finite32 x = true /\ B2Z x = ((2 * i + 1) * 2 ^ 148)%Z.

(** Pixel [(i, j)] of a rectangle of [w] x [h] pixels, counted from its
    bottom-left corner, lies in one of the four bands of [sw] pixels. *)
Definition in_border (w h sw i j : nat) : bool :=
  (i <? sw)%nat || (w - sw <=? i)%nat || (j <? sw)%nat || (h - sw <=? j)%nat.

(** The rectangle has its edges in order and a stroke that is not
    negative. *)
Definition ordered_rect (u : uniforms Q) : Prop :=
  x1 u <= x2 u /\ y1 u <= y2 u /\ 0 <= stroke_width u.

(** Each of the four bands covers exactly [n] of the pixel columns
    [col, ..., col + w - 1] or of the pixel rows [row, ..., row + h - 1]. *)
Definition border_of_width (u : uniforms spec_float) (col row : Z) (w h n : nat) : Prop :=
  count_hits32 (hit_left u) col w = n /\
  count_hits32 (hit_right u) col w = n /\
  count_hits32 (hit_bottom u) row h = n /\
  count_hits32 (hit_top u) row h = n.

(** A rectangle from 1/2 to 21/2 in both directions, in a frame of
    11 x 11 pixels: its edges pass through the centres of the pixel
    columns and rows 0 and 10. *)
Definition half_pixel_rect (sw : Z) : uniforms spec_float :=
  Uniforms (Vec4 (b32 11 0) (b32 11 0) (b32 0 0) (b32 0 0))
           (Vec4 (b32 1 (-1)) (b32 21 (-1)) (b32 1 (-1)) (b32 21 (-1)))
           (b32 sw 0) red32 black32.

(** A rectangle of 4 x 4 pixels at the far corner of a frame of
    [2^24 + 4] pixels a side, with a stroke of 3. *)
Definition far_rect : uniforms spec_float :=
  pixel_rect32 (2 ^ 24 + 4) (2 ^ 24 + 4) (2 ^ 24) (2 ^ 24 + 4) 0 4 3 red32 black32.


(** A rectangle whose left edge is the binary32 number nearest to 0.7,
    [11744051 * 2^-24], with a stroke of the binary32 number nearest to
    1.8, [15099494 * 2^-23]: the sum of the two rounds up to 2.5. *)
Definition rounded_rect : uniforms spec_float :=
  Uniforms (Vec4 (b32 100 0) (b32 100 0) (b32 0 0) (b32 0 0))
           (Vec4 (b32 11744051 (-24)) (b32 100 0) (b32 10 0) (b32 90 0))
           (b32 15099494 (-23)) red32 black32.

(** The rectangle of [u'] is that of [u] displaced by [(dx, dy)], in the
    same frame and with the same stroke width. *)
Definition moved (u u' : uniforms Q) (dx dy : Q) : Prop :=
  vy (frame_size u') == vy (frame_size u) /\
  x1 u' == x1 u + dx /\ x2 u' == x2 u + dx /\
  y1 u' == y1 u + dy /\ y2 u' == y2 u + dy /\
  stroke_width u' == stroke_width u.

Local Close Scope Q_scope.

End shaders.

(** ** Package [commands]: the build command *)

Module commands.

(** Go [error] values.  [Errorf] carries the message built by
    [fmt.Errorf]; [ExternalError] stands for an error produced outside this
    package ([os.Stat], the toolchain runner). *)
Inductive error : Type :=
| ExternalError (msg : string)
| Errorf (msg : string).

(** Result of [os.Stat]: an error, or a [FileInfo] of which only [IsDir]
    is read. *)
Inductive stat_result : Type :=
| StatErr (e : error)
| StatOk (isDir : bool).

(** A [*version.ConstraintGroup] of github.com/mcuadros/go-version: its
    [Match] method and the rendering of [GetConstraints()]. *)
Record ConstraintGroup : Type := {
  Match : string -> bool;
  GetConstraints : string
}.

(** A value of the [runner] interface: the tool it runs ([newCommand]'s
    argument) and what [setDir] and [setEnv] stored in it. *)
Record command : Type := Command {
  exe : string;
  dir : string;
  env : list string
}.

Definition newCommand (name : string) : command := Command name "" [].
Definition setDir (r : command) (d : string) : command := Command (exe r) d (env r).
Definition setEnv (r : command) (e : list string) : command := Command (exe r) (dir r) e.

(** What lies outside the package: the process environment, the file
    system, the go-version library and the execution of the toolchain. *)
Record World : Type := {
  os_Environ : list string;
  os_LookupEnv : string -> option string;
  runtime_GOOS : string;
  os_Stat : string -> stat_result;
  version_Normalize : string -> string;
  version_NewConstrainGroupFromString : string -> ConstraintGroup;
  run : command -> list string -> string * option error
}.

(** Observable effects, in order: toolchain invocations and lines written
    to standard error. *)
Inductive event : Type :=
| Run (r : command) (args : list string)
| Stderr (line : string).

Record Builder : Type := {
  os : string;
  srcdir : string;
  target : string;
  goPackage : string;
  release : bool;
  tags : list string;
  tagsToParse : string;
  runner : option command
}.

(** Assignments to single fields of a builder. *)
Definition set_os (b : Builder) (o : string) : Builder :=
  {| os := o; srcdir := srcdir b; target := target b; goPackage := goPackage b;
     release := release b; tags := tags b; tagsToParse := tagsToParse b;
     runner := runner b |}.

Definition set_srcdir (b : Builder) (d : string) : Builder :=
  {| os := os b; srcdir := d; target := target b; goPackage := goPackage b;
     release := release b; tags := tags b; tagsToParse := tagsToParse b;
     runner := runner b |}.

Definition set_tags (b : Builder) (t : list string) : Builder :=
  {| os := os b; srcdir := srcdir b; target := target b; goPackage := goPackage b;
     release := release b; tags := t; tagsToParse := tagsToParse b;
     runner := runner b |}.

Definition set_runner (b : Builder) (r : command) : Builder :=
  {| os := os b; srcdir := srcdir b; target := target b; goPackage := goPackage b;
     release := release b; tags := tags b; tagsToParse := tagsToParse b;
     runner := Some r |}.

(** [strings.Split(s, sep)] for a separator of one byte, the only kind
    this package uses: the pieces between the separators, one more than
    there are separators. *)
Fixpoint Split (s : string) (sep : ascii) : list string :=
  match s with
  | EmptyString => [EmptyString]
  | String a s' =>
      if Ascii.eqb a sep then EmptyString :: Split s' sep
      else match Split s' sep with
           | h :: t => String a h :: t
           | [] => [String a EmptyString]
           end
  end.

(** [strings.Join(elems, sep)]. *)
Fixpoint Join (elems : list string) (sep : string) : string :=
  match elems with
  | [] => ""
  | [e] => e
  | e :: rest => e +:+ sep +:+ Join rest sep
  end.

(** [runner.runOutput(args...)]. *)
Definition runOutput (w : World) (r : command) (args : list string)
  : (string * option error) * list event :=
  (run w r args, [Run r args]).

(** [checkVersion], lines 94-107.  The indexing [split[i]] happens only
    after [len(split) != 4] was found false. *)
Definition checkVersion (w : World) (output : string) (versionConstraint : ConstraintGroup)
  : option error :=
  let split := Split output " " in
  if negb (length split =? 4)%nat
     || negb (nth 0 split "" =? "go")%string
     || negb (nth 1 split "" =? "version")%string
     || (String.length (nth 2 split "") <? 5)%nat
     || negb (substring 0 2 (nth 2 split "") =? "go")%string
  then Some (Errorf ("invalid output for `go version`: `" +:+ output +:+ "`"))
  else
    let normalized :=
      version_Normalize w
        (substring 2 (String.length (nth 2 split "") - 2 - 2) (nth 2 split "")) in
    if negb (Match versionConstraint normalized)
    then Some (Errorf ("expected go version " +:+ GetConstraints versionConstraint
                       +:+ " got `" +:+ normalized +:+ "`"))
    else None.

Definition isWeb (goos : string) : bool :=
  (goos =? "gopherjs")%string || (goos =? "wasm")%string.

(** [checkGoVersion], lines 113-125; [None] is the nil constraint. *)
Definition checkGoVersion (w : World) (r : command) (versionConstraint : option ConstraintGroup)
  : option error * list event :=
  match versionConstraint with
  | None => (None, [])
  | Some vc =>
      let '((goVersion, err), tr) := runOutput w r ["version"] in
      match err with
      | Some e => (Some e, tr ++ [Stderr goVersion])
      | None => (checkVersion w goVersion vc, tr)
      end
  end.

(** [targetOS], lines 207-214. *)
Definition targetOS (w : World) : string :=
  match os_LookupEnv w "GOOS" with
  | Some osEnv => osEnv
  | None => runtime_GOOS w
  end.

(** The local [goos] of [build], lines 130-133. *)
Definition build_goos (w : World) (b : Builder) : string :=
  let goos := os b in
  if (goos =? "")%string then targetOS w else goos.

(** The local [args] of [build] when it reaches line 185. *)
Definition build_args (b : Builder) (goos : string) : list string :=
  let args := ["build"] in
  let args :=
    if negb (isWeb goos) then
      if (goos =? "windows")%string then
        if release b then args ++ ["-ldflags"; "-s -w -H=windowsgui"]
        else args ++ ["-ldflags"; "-H=windowsgui"]
      else if release b then args ++ ["-ldflags"; "-s -w"]
      else args
    else args in
  let args :=
    if negb (target b =? "")%string then args ++ ["-o"; target b] else args in
  (* handle build tags *)
  let tags := tags b in
  let tags := if release b then tags ++ ["release"] else tags in
  let args :=
    if (0 <? length tags)%nat then
      let args :=
        if (goos =? "gopherjs")%string then args ++ ["--tags"] else args ++ ["-tags"] in
      args ++ [Join tags ","]
    else args in
  let args :=
    if negb (goPackage b =? "")%string then args ++ [goPackage b] else args in
  args.

(** The local [env] of [build] when it reaches line 194, together with
    the version constraint chosen at lines 186-192. *)
Definition build_env (w : World) (goos : string) : list string * option ConstraintGroup :=
  let env := os_Environ w in
  let env :=
    if (goos =? "darwin")%string
    then env ++ ["CGO_CFLAGS=-mmacosx-version-min=10.11";
                 "CGO_LDFLAGS=-mmacosx-version-min=10.11"]
    else env in
  let env := if negb (isWeb goos) then env ++ ["CGO_ENABLED=1"] else env in
  if negb (goos =? "ios")%string && negb (goos =? "android")%string && negb (isWeb goos)
  then (env ++ ["GOOS=" +:+ goos], None)
  else if (goos =? "wasm")%string
  then ((env ++ ["GOARCH=wasm"]) ++ ["GOOS=js"],
        Some (version_NewConstrainGroupFromString w ">=1.17"))
  else (env, None).

(** [Builder.build], lines 127-205: the returned error, the builder as
    the call leaves it, and the effects in order. *)
Definition build (w : World) (b : Builder) : option error * Builder * list event :=
  let goos := build_goos w b in
  let r :=
    match runner b with
    | None => if negb (goos =? "gopherjs")%string then newCommand "go"
              else newCommand "gopherjs"
    | Some r => r
    end in
  let args := build_args b goos in
  let '(env, versionConstraint) := build_env w goos in
  let '(verr, tr1) := checkGoVersion w r versionConstraint in
  match verr with
  | Some err => (Some err, set_runner b r, tr1)
  | None =>
      let r := setDir r (srcdir b) in
      let r := setEnv r env in
      let '((out, err), tr2) := runOutput w r args in
      let tr3 := match err with Some _ => [Stderr out] | None => [] end in
      (err, set_runner b r, tr1 ++ tr2 ++ tr3)
  end.

(** [Builder.Build], lines 77-92. *)
Definition Build (w : World) (b : Builder) : option error * Builder * list event :=
  let stat_failure :=
    if negb (srcdir b =? "")%string then
      match os_Stat w (srcdir b) with
      | StatErr err => Some err
      | StatOk isDir =>
          if negb isDir
          then Some (Errorf "specified source directory is not a valid directory")
          else None
      end
    else None in
  match stat_failure with
  | Some err => (Some err, b, [])
  | None =>
      let b := if negb (tagsToParse b =? "")%string
               then set_tags b (Split (tagsToParse b) ",") else b in
      build w b
  end.

(** *** Vocabulary of the specification *)

(** The toolchain invocations among the effects. *)
Definition runs (tr : list event) : list (command * list string) :=
  flat_map (fun e => match e with Run r a => [(r, a)] | Stderr _ => [] end) tr.

(** The tag list [build] works with after [Build] parsed the [--tags]
    flag: the parsed tags (the builder's own when the flag is empty), and
    ["release"] in release mode. *)
Definition tag_list (b : Builder) : list string :=
  (if (tagsToParse b =? "")%string then tags b else Split (tagsToParse b) ",")
  ++ (if release b then ["release"] else []).

Definition tags_flag (goos : string) : string :=
  if (goos =? "gopherjs")%string then "--tags" else "-tags".

(** The arguments around the tags argument: linker flags, output path and
    package. *)
Definition ldflags_part (goos : string) (rel : bool) : list string :=
  if isWeb goos then []
  else if (goos =? "windows")%string then
    if rel then ["-ldflags"; "-s -w -H=windowsgui"] else ["-ldflags"; "-H=windowsgui"]
  else if rel then ["-ldflags"; "-s -w"] else [].

Definition output_part (b : Builder) : list string :=
  if (target b =? "")%string then [] else ["-o"; target b].

Definition package_part (b : Builder) : list string :=
  if (goPackage b =? "")%string then [] else [goPackage b].

(** The argument list with [t] in the place of the tags argument. *)
Definition args_around (goos : string) (b : Builder) (t : list string) : list string :=
  ["build"] ++ ldflags_part goos (release b) ++ output_part b ++ t ++ package_part b.

(** The byte [c] occurs in [s]. *)
Fixpoint contains (c : ascii) (s : string) : bool :=
  match s with
  | EmptyString => false
  | String a s' => Ascii.eqb a c || contains c s'
  end.

(** The outputs of [go version] that the specification accepts:
    ["go version go" ++ v ++ tail ++ " " ++ platform], where [tail] has two
    bytes, [v] at least one, and none of the three contains a space. *)
Definition go_version_output (v tail platform : string) : string :=
  "go version go" +:+ v +:+ tail +:+ " " +:+ platform.

Definition well_formed (v tail platform : string) : Prop :=
  String.length tail = 2%nat /\ (1 <= String.length v)%nat /\
  contains " " v = false /\ contains " " tail = false /\
  contains " " platform = false.

Definition invalid_output (output : string) : error :=
  Errorf ("invalid output for `go version`: `" +:+ output +:+ "`").

(** A world for the examples: [GOOS] unset on a linux host, [/src] the
    only directory, [/etc/passwd] a file, a toolchain that succeeds and
    prints go 1.21.4, versions normalised to themselves and a constraint
    that accepts every version but "1.16". *)
Definition example_world : World := {|
  os_Environ := ["HOME=/root"];
  os_LookupEnv := fun _ => None;
  runtime_GOOS := "linux";
  os_Stat := fun p =>
    if (p =? "/src")%string then StatOk true
    else if (p =? "/etc/passwd")%string then StatOk false
    else StatErr (ExternalError "no such file or directory");
  version_Normalize := fun v => v;
  version_NewConstrainGroupFromString := fun c =>
    {| Match := fun v => negb (v =? "1.16")%string; GetConstraints := c |};
  run := fun r args =>
    match args with
    | ["version"] => ("go version go1.21.4 linux/amd64", None)
    | _ => ("", None)
    end
|}.

(** The same world with [GOOS=darwin] in the environment. *)
Definition goos_world : World := {|
  os_Environ := ["HOME=/root"; "GOOS=darwin"];
  os_LookupEnv := fun k => if (k =? "GOOS")%string then Some "darwin" else None;
  runtime_GOOS := "linux";
  os_Stat := os_Stat example_world;
  version_Normalize := version_Normalize example_world;
  version_NewConstrainGroupFromString := version_NewConstrainGroupFromString example_world;
  run := run example_world
|}.

Definition example_builder : Builder := {|
  os := ""; srcdir := "/src"; target := "app"; goPackage := "./cmd";
  release := true; tags := []; tagsToParse := "debug,gles";
  runner := None
|}.

(** The builder [Build] hands to [build]. *)
Definition parsed (b : Builder) : Builder :=
  if negb (tagsToParse b =? "")%string then set_tags b (Split (tagsToParse b) ",") else b.

(** *** The command action, and further vocabulary *)

Definition set_goPackage (b : Builder) (p : string) : Builder :=
  {| os := os b; srcdir := srcdir b; target := target b; goPackage := p;
     release := release b; tags := tags b; tagsToParse := tagsToParse b;
     runner := runner b |}.

(** The [Action] of the command that [Build()] returns, lines 62-72, on
    the builder [b] the flags were stored in; [args] are the positional
    arguments [ctx.Args()], whose [First()] is the empty string when there
    is none. *)
Definition Action (w : World) (b : Builder) (args : list string)
  : option error * Builder * list event :=
  let argCount := length args in
  if (0 <? argCount)%nat then
    if negb (argCount =? 1)%nat
    then (Some (Errorf "incorrect amount of path provided"), b, [])
    else Build w (set_goPackage b (hd "" args))
  else Build w b.

(** The runner [build] works with (lines 135-141), and that runner once
    [build] has given it the source directory and the environment (lines
    198-199). *)
Definition build_runner (w : World) (b : Builder) : command :=
  match runner b with
  | None => if negb (build_goos w b =? "gopherjs")%string then newCommand "go"
            else newCommand "gopherjs"
  | Some r => r
  end.

Definition configured_runner (w : World) (b : Builder) : command :=
  setEnv (setDir (build_runner w b) (srcdir b)) (build_env w (build_goos w b)).1.

(** What [build] adds to the inherited environment, by target. *)
Definition added_env (goos : string) : list string :=
  if (goos =? "gopherjs")%string then []
  else if (goos =? "wasm")%string then ["GOARCH=wasm"; "GOOS=js"]
  else if (goos =? "ios")%string || (goos =? "android")%string then ["CGO_ENABLED=1"]
  else if (goos =? "darwin")%string
  then ["CGO_CFLAGS=-mmacosx-version-min=10.11"; "CGO_LDFLAGS=-mmacosx-version-min=10.11";
        "CGO_ENABLED=1"; "GOOS=darwin"]
  else ["CGO_ENABLED=1"; "GOOS=" +:+ goos].

(** A world whose toolchain is go 1.16, and a builder for wasm. *)
Definition old_go_world : World := {|
  os_Environ := os_Environ example_world;
  os_LookupEnv := os_LookupEnv example_world;
  runtime_GOOS := runtime_GOOS example_world;
  os_Stat := os_Stat example_world;
  version_Normalize := version_Normalize example_world;
  version_NewConstrainGroupFromString := version_NewConstrainGroupFromString example_world;
  run := fun r args =>
    match args with
    | ["version"] => ("go version go1.16.9 linux/amd64", None)
    | _ => ("", None)
    end
|}.

Definition wasm_builder : Builder := set_os example_builder "wasm".

End commands.

(** ** Package [test]: the configurable theme *)

Module test.

(** Go interface values ([color.Color], [fyne.Resource]): [None] is nil. *)
Definition iface (A : Type) : Type := option A.

(** [float32]; its zero value is positive zero. *)
Definition float32 : Type := spec_float.
Definition float32_zero : float32 := S754_zero false.

(** [fyne.ThemeColorName] and [fyne.ThemeSizeName] are string types,
    [fyne.ThemeVariant] is [uint]. *)
Definition ThemeColorName : Type := string.
Definition ThemeSizeName : Type := string.
Definition ThemeVariant : Type := N.

Section Theme.

(** [fyne.TextStyle] (a comparable struct declared in the root package),
    the dynamic types behind [color.Color] and [fyne.Resource], and the
    [%#v] rendering of a text style. *)
Context {TextStyle : Type} `{Countable TextStyle}.
Context {color : Type} {resource : Type}.
Context (show_style : TextStyle -> string).

Record configurableTheme : Type := {
  colors : gmap ThemeColorName (iface color);
  fonts : gmap TextStyle (iface resource);
  name : string;
  sizes : gmap ThemeSizeName float32
}.

(** [fyne.LogError(reason, nil)]: appends [reason] to the log. *)
Definition LogError (reason : string) (log : list string) : list string :=
  log ++ [reason].

(** Go's [m[k]]: the value stored under [k], the zero value when [k] is
    absent (also when the map itself is nil). *)
Definition index {K V : Type} `{Countable K} (zero : V) (m : gmap K V) (k : K) : V :=
  default zero (m !! k).

(** [Color], lines 158-164. *)
Definition Color (t : configurableTheme) (n : ThemeColorName) (_ : ThemeVariant)
    (log : list string) : iface color * list string :=
  let log :=
    match index None (colors t) n with
    | None => LogError ("color " +:+ n +:+ " not defined in theme " +:+ name t) log
    | Some _ => log
    end in
  (index None (colors t) n, log).

(** [Font], lines 166-172. *)
Definition Font (t : configurableTheme) (style : TextStyle)
    (log : list string) : iface resource * list string :=
  let log :=
    match index None (fonts t) style with
    | None => LogError ("font for style " +:+ show_style style
                        +:+ " not defined in theme " +:+ name t) log
    | Some _ => log
    end in
  (index None (fonts t) style, log).

(** [Size], lines 178-184; [== 0] is the IEEE comparison. *)
Definition Size (t : configurableTheme) (s : ThemeSizeName)
    (log : list string) : float32 * list string :=
  let log :=
    if SFeqb (index float32_zero (sizes t) s) float32_zero
    then LogError ("size " +:+ s +:+ " not defined in theme " +:+ name t) log
    else log in
  (index float32_zero (sizes t) s, log).

End Theme.

(** A theme for the examples, with strings for text styles and numbers
    for colours and resources; it defines one colour, one font and one
    size. *)
Definition example_theme : @configurableTheme string _ _ nat nat := {|
  colors := {[ "background" := Some 1%nat ]};
  fonts := {[ "bold" := Some 2%nat ]};
  name := "Ugly Test Theme";
  sizes := {[ "padding" := shaders.b32 10 0 ]}
|}.

(** A theme that stores the size 0, negative, under "padding". *)
Definition zero_theme : @configurableTheme string _ _ nat nat := {|
  colors := ∅;
  fonts := ∅;
  name := "Zero";
  sizes := {[ "padding" := S754_zero true ]}
|}.

(** *** The two test themes *)

(** The colours the file builds: [color.NRGBA] and [color.Gray] values,
    and pointers to them. *)
Inductive color_value : Type :=
| NRGBA (R G B A : N)
| Gray (Y : N)
| Ref (c : color_value).

(** The colour names and size names of package [theme] that the file
    uses. *)
Inductive ColorName : Type :=
| ColorNameBackground | ColorNameButton | ColorNameDisabled | ColorNameDisabledButton
| ColorNameError | ColorNameErrorForeground | ColorNameFocus | ColorNameForeground
| ColorNameHeaderBackground | ColorNameHover | ColorNameHyperlink
| ColorNameInputBackground | ColorNameInputBorder | ColorNameMenuBackground
| ColorNameOverlayBackground | ColorNamePlaceHolder | ColorNamePressed | ColorNamePrimary
| ColorNamePrimaryForeground | ColorNameScrollBar | ColorNameSelection | ColorNameSeparator
| ColorNameShadow | ColorNameSuccess | ColorNameSuccessForeground | ColorNameWarning
| ColorNameWarningForeground.

Inductive SizeName : Type :=
| SizeNameInlineIcon | SizeNameInnerPadding | SizeNameLineSpacing | SizeNamePadding
| SizeNameScrollBar | SizeNameScrollBarSmall | SizeNameSeparatorThickness | SizeNameText
| SizeNameHeadingText | SizeNameSubHeadingText | SizeNameCaptionText | SizeNameInputBorder
| SizeNameInputRadius | SizeNameSelectionRadius.

(** [knownColorNames] of [theme/theme_test.go], lines 14-42. *)
Definition knownColorNames : list ColorName :=
  [ColorNameBackground; ColorNameButton; ColorNameDisabled; ColorNameDisabledButton;
   ColorNameError; ColorNameErrorForeground; ColorNameFocus; ColorNameForeground;
   ColorNameHeaderBackground; ColorNameHover; ColorNameHyperlink; ColorNameInputBackground;
   ColorNameInputBorder; ColorNameMenuBackground; ColorNameOverlayBackground;
   ColorNamePlaceHolder; ColorNamePressed; ColorNamePrimary; ColorNamePrimaryForeground;
   ColorNameScrollBar; ColorNameSelection; ColorNameSeparator; ColorNameShadow;
   ColorNameSuccess; ColorNameSuccessForeground; ColorNameWarning;
   ColorNameWarningForeground].

(** [float32(n)] for a whole number [n], and [float32(n / d)] rounded to
    the nearest binary32 value, as Go converts a constant. *)
Definition float32_of_Z (n : Z) : float32 := shaders.b32 n 0.
Definition float32_of_ratio (n d : Z) : float32 :=
  SFdiv 24 128 (shaders.b32 n 0) (shaders.b32 d 0).

Section TestThemes.

(** What package [theme] and the root package declare: the strings behind
    the name constants, the text style with the given [Bold], [Italic],
    [Monospace] and [Symbol] fields and every other field zero, and the
    bundled font resources. *)
Context {TextStyle : Type} `{Countable TextStyle} {resource : Type}.
Context (color_name : ColorName -> ThemeColorName).
Context (size_name : SizeName -> ThemeSizeName).
Context (style : bool -> bool -> bool -> bool -> TextStyle).
Context (DefaultTextFont DefaultTextBoldFont DefaultTextItalicFont
         DefaultTextBoldItalicFont DefaultTextMonospaceFont DefaultSymbolFont
         : iface resource).

(** The closures of [NewTheme], lines 15-26. *)
Definition blue (alpha : N) : iface color_value := Some (Ref (NRGBA 0 0 255 alpha)).
Definition gray (level : N) : iface color_value := Some (Ref (Gray level)).
Definition green (alpha : N) : iface color_value := Some (Ref (NRGBA 0 255 0 alpha)).
Definition red (alpha : N) : iface color_value := Some (Ref (NRGBA 200 0 0 alpha)).

(** The map literals of [NewTheme], lines 29-82, as the lists of their
    entries. *)
Definition NewTheme_colors : list (ThemeColorName * iface color_value) :=
  [(color_name ColorNameBackground, red 255);
   (color_name ColorNameButton, gray 100);
   (color_name ColorNameDisabled, gray 20);
   (color_name ColorNameDisabledButton, gray 230);
   (color_name ColorNameError, blue 255);
   (color_name ColorNameErrorForeground, red 210);
   (color_name ColorNameFocus, red 66);
   (color_name ColorNameForeground, gray 255);
   (color_name ColorNameHeaderBackground, red 22);
   (color_name ColorNameHover, green 200);
   (color_name ColorNameHyperlink, blue 240);
   (color_name ColorNameInputBackground, red 30);
   (color_name ColorNameInputBorder, gray 10);
   (color_name ColorNameMenuBackground, red 50);
   (color_name ColorNameOverlayBackground, red 44);
   (color_name ColorNamePlaceHolder, blue 200);
   (color_name ColorNamePressed, blue 250);
   (color_name ColorNamePrimary, green 255);
   (color_name ColorNamePrimaryForeground, red 200);
   (color_name ColorNameScrollBar, blue 220);
   (color_name ColorNameSelection, red 55);
   (color_name ColorNameSeparator, gray 30);
   (color_name ColorNameShadow, blue 150);
   (color_name ColorNameSuccess, green 150);
   (color_name ColorNameSuccessForeground, blue 201);
   (color_name ColorNameWarning, red 100);
   (color_name ColorNameWarningForeground, blue 202)].

Definition NewTheme_fonts : list (TextStyle * iface resource) :=
  [(style false false false false, DefaultTextBoldFont);
   (style true false false false, DefaultTextItalicFont);
   (style true true false false, DefaultTextMonospaceFont);
   (style false true false false, DefaultTextBoldItalicFont);
   (style false false true false, DefaultTextFont);
   (style false false false true, DefaultSymbolFont)].

Definition NewTheme_sizes : list (ThemeSizeName * float32) :=
  [(size_name SizeNameInlineIcon, float32_of_Z 24);
   (size_name SizeNameInnerPadding, float32_of_Z 20);
   (size_name SizeNameLineSpacing, float32_of_Z 6);
   (size_name SizeNamePadding, float32_of_Z 10);
   (size_name SizeNameScrollBar, float32_of_Z 10);
   (size_name SizeNameScrollBarSmall, float32_of_Z 2);
   (size_name SizeNameSeparatorThickness, float32_of_Z 1);
   (size_name SizeNameText, float32_of_Z 18);
   (size_name SizeNameHeadingText, float32_of_ratio 306 10);
   (size_name SizeNameSubHeadingText, float32_of_Z 24);
   (size_name SizeNameCaptionText, float32_of_Z 15);
   (size_name SizeNameInputBorder, float32_of_Z 5);
   (size_name SizeNameInputRadius, float32_of_Z 2);
   (size_name SizeNameSelectionRadius, float32_of_Z 6)].

(** [NewTheme], lines 14-84. *)
Definition NewTheme : @configurableTheme TextStyle _ _ color_value resource := {|
  colors := list_to_map NewTheme_colors;
  fonts := list_to_map NewTheme_fonts;
  name := "Ugly Test Theme";
  sizes := list_to_map NewTheme_sizes
|}.

(** The map literals of [Theme], lines 90-143. *)
Definition Theme_colors : list (ThemeColorName * iface color_value) :=
  [(color_name ColorNameBackground, Some (NRGBA 0x44 0x44 0x44 0xff));
   (color_name ColorNameButton, Some (NRGBA 0x33 0x33 0x33 0xff));
   (color_name ColorNameDisabled, Some (NRGBA 0x88 0x88 0x88 0xff));
   (color_name ColorNameDisabledButton, Some (NRGBA 0x22 0x22 0x22 0xff));
   (color_name ColorNameError, Some (NRGBA 0xf4 0x43 0x36 0xff));
   (color_name ColorNameErrorForeground, Some (NRGBA 0x08 0x0a 0x0f 0xff));
   (color_name ColorNameFocus, Some (NRGBA 0x78 0x3a 0x3a 0xff));
   (color_name ColorNameForeground, Some (NRGBA 0xff 0xff 0xff 0xff));
   (color_name ColorNameHeaderBackground, Some (NRGBA 0x25 0x25 0x25 0xff));
   (color_name ColorNameHover, Some (NRGBA 0x88 0xff 0xff 0x22));
   (color_name ColorNameHyperlink, Some (NRGBA 0xff 0xcc 0x80 0xff));
   (color_name ColorNameInputBackground, Some (NRGBA 0x66 0x66 0x66 0xff));
   (color_name ColorNameInputBorder, Some (NRGBA 0x86 0x86 0x86 0xff));
   (color_name ColorNameMenuBackground, Some (NRGBA 0x56 0x56 0x56 0xff));
   (color_name ColorNameOverlayBackground, Some (NRGBA 0x28 0x28 0x28 0xff));
   (color_name ColorNamePlaceHolder, Some (NRGBA 0xaa 0xaa 0xaa 0xff));
   (color_name ColorNamePressed, Some (NRGBA 0x00 0x00 0x00 0x33));
   (color_name ColorNamePrimary, Some (NRGBA 0xff 0xc0 0x80 0xff));
   (color_name ColorNamePrimaryForeground, Some (NRGBA 0x08 0x0c 0x0f 0xff));
   (color_name ColorNameScrollBar, Some (NRGBA 0x00 0x00 0x00 0xaa));
   (color_name ColorNameSelection, Some (NRGBA 0x78 0x3a 0x3a 0x99));
   (color_name ColorNameSeparator, Some (NRGBA 0x90 0x90 0x90 0xff));
   (color_name ColorNameShadow, Some (NRGBA 0x00 0x00 0x00 0x88));
   (color_name ColorNameSuccess, Some (NRGBA 0x00 0x99 0x00 0xff));
   (color_name ColorNameSuccessForeground, Some (NRGBA 0x0a 0x0c 0x0f 0xff));
   (color_name ColorNameWarning, Some (NRGBA 0xee 0xee 0x00 0xff));
   (color_name ColorNameWarningForeground, Some (NRGBA 0x08 0x0c 0x0a 0xff))].

Definition Theme_fonts : list (TextStyle * iface resource) :=
  [(style false false false false, DefaultTextFont);
   (style true false false false, DefaultTextBoldFont);
   (style true true false false, DefaultTextBoldItalicFont);
   (style false true false false, DefaultTextItalicFont);
   (style false false true false, DefaultTextMonospaceFont);
   (style false false false true, DefaultSymbolFont)].

Definition Theme_sizes : list (ThemeSizeName * float32) :=
  [(size_name SizeNameInlineIcon, float32_of_Z 20);
   (size_name SizeNameInnerPadding, float32_of_Z 8);
   (size_name SizeNameLineSpacing, float32_of_Z 4);
   (size_name SizeNamePadding, float32_of_Z 4);
   (size_name SizeNameScrollBar, float32_of_Z 16);
   (size_name SizeNameScrollBarSmall, float32_of_Z 3);
   (size_name SizeNameSeparatorThickness, float32_of_Z 1);
   (size_name SizeNameText, float32_of_Z 14);
   (size_name SizeNameHeadingText, float32_of_ratio 238 10);
   (size_name SizeNameSubHeadingText, float32_of_Z 18);
   (size_name SizeNameCaptionText, float32_of_Z 11);
   (size_name SizeNameInputBorder, float32_of_Z 2);
   (size_name SizeNameInputRadius, float32_of_Z 4);
   (size_name SizeNameSelectionRadius, float32_of_Z 4)].

(** The theme [Theme] builds when [defaultTheme] is nil. *)
Definition default_test_theme : @configurableTheme TextStyle _ _ color_value resource := {|
  colors := list_to_map Theme_colors;
  fonts := list_to_map Theme_fonts;
  name := "Default Test Theme";
  sizes := list_to_map Theme_sizes
|}.

(** [Theme], lines 87-147: the returned theme and the package variable
    [defaultTheme] after the call ([None] is nil). *)
Definition Theme (defaultTheme : option (@configurableTheme TextStyle _ _ color_value resource))
  : @configurableTheme TextStyle _ _ color_value resource
    * option (@configurableTheme TextStyle _ _ color_value resource) :=
  match defaultTheme with
  | None => (default_test_theme, Some default_test_theme)
  | Some t => (t, Some t)
  end.

End TestThemes.

(** The two themes for the examples: every colour name spelled "color",
    every size name "size", every text style "style", no font resources. *)
Definition example_NewTheme : @configurableTheme string _ _ color_value nat :=
  NewTheme (fun _ => "color") (fun _ => "size") (fun _ _ _ _ => "style")
           None None None None None None.

Definition example_Theme
    (defaultTheme : option (@configurableTheme string _ _ color_value nat)) :=
  Theme (fun _ => "color") (fun _ => "size") (fun _ _ _ _ => "style")
        None None None None None None defaultTheme.

End test.

(** ** Package [lang]: localisation with fallback *)

Module lang.

Section Lang.

(** Go's [any] values passed as template data ([None] is nil), parsed
    templates and errors. *)
Context {data : Type} {Template : Type} {error : Type}.

(** [i18n.Message] and [i18n.LocalizeConfig], with the fields the
    package sets; [PluralCount] is an interface, nil unless assigned. *)
Record Message : Type := {
  ID : string;
  Other : string
}.

Record LocalizeConfig : Type := {
  DefaultMessage : Message;
  PluralCount : option Z;
  TemplateData : option data
}.

(** The collaborators: [localizer.Localize] of go-i18n, and
    [template.New(name).Parse(text)] and [t.Execute(w, data)] of
    text/template.  [Execute] yields what it wrote to [w] and its error. *)
Context (Localize_ : LocalizeConfig -> string * option error).
Context (Parse : string -> string -> Template + error).
Context (Execute : Template -> option data -> string * option error).

(** What the package writes through [fyne.LogError] and [log.Println]. *)
Inductive logline : Type :=
| LogError (reason : string) (err : error)
| Println (line : string).

(** [fallbackWithData], lines 201-210. *)
Definition fallbackWithData (key fallback : string) (d : option data)
    (log : list logline) : string * list logline :=
  match Parse key fallback with
  | inr _ => (fallback, log ++ [Println "Could not parse fallback template"])
  | inl t =>
      let '(str, _) := Execute t d in
      (str, log)
  end.

(** The first variadic argument, nil when there is none (lines 65-68). *)
Definition first_data (data_args : list (option data)) : option data :=
  match data_args with
  | [] => None
  | d :: _ => d
  end.

(** [LocalizeKey], lines 64-83. *)
Definition LocalizeKey (key fallback : string) (data_args : list (option data))
    (log : list logline) : string * list logline :=
  let d0 := first_data data_args in
  let '(ret, err) :=
    Localize_ {| DefaultMessage := {| ID := key; Other := fallback |};
                 PluralCount := None;
                 TemplateData := d0 |} in
  match err with
  | Some e => fallbackWithData key fallback d0 (log ++ [LogError "Translation failure" e])
  | None => (ret, log)
  end.

(** [LocalizePluralKey], lines 98-118. *)
Definition LocalizePluralKey (key fallback : string) (count : Z)
    (data_args : list (option data)) (log : list logline) : string * list logline :=
  let d0 := first_data data_args in
  let '(ret, err) :=
    Localize_ {| DefaultMessage := {| ID := key; Other := fallback |};
                 PluralCount := Some count;
                 TemplateData := d0 |} in
  match err with
  | Some e => fallbackWithData key fallback d0 (log ++ [LogError "Translation failure" e])
  | None => (ret, log)
  end.

(** [Localize] and [LocalizePlural], lines 56-58 and 89-91. *)
Definition Localize (in_ : string) (data_args : list (option data))
    (log : list logline) : string * list logline :=
  LocalizeKey in_ in_ data_args log.

Definition LocalizePlural (in_ : string) (count : Z) (data_args : list (option data))
    (log : list logline) : string * list logline :=
  LocalizePluralKey in_ in_ count data_args log.

End Lang.

(** Collaborators for the examples: a localizer that finds no message, a
    parser that rejects an unclosed action and a template engine that
    appends the data to the template text. *)
Definition no_message (c : @LocalizeConfig string) : string * option string :=
  ("", Some "message not found").

Definition example_Parse (name text : string) : string + string :=
  if (text =? "{{")%string then inr "unclosed action" else inl text.

Definition example_Execute (t : string) (d : option string) : string * option string :=
  (t +:+ default "" d, None).

(** *** Ordering of the languages *)

Section OrderLanguages.

(** [language.Tag] of golang.org/x/text and its [String] method. *)
Context {Tag : Type} (Tag_String : Tag -> string).

(** The loop of [orderLanguages], lines 215-222, started at index [i]
    with the values [indexA] and [indexB]. *)
Fixpoint order_loop (languageOrder : list string) (i : Z) (a b : Tag) (indexA indexB : Z)
  : Z * Z :=
  match languageOrder with
  | [] => (indexA, indexB)
  | l :: rest =>
      let indexA := if (Tag_String a =? l)%string then i else indexA in
      let indexB := if (Tag_String b =? l)%string then i else indexB in
      order_loop rest (i + 1) a b indexA indexB
  end.

(** [orderLanguages], lines 212-236, for the value [languageOrder] of
    the package variable; [strings.Compare(x, y) < 0] is [String.compare
    x y = Lt], the bytewise lexicographic order. *)
Definition orderLanguages (languageOrder : list string) (a b : Tag) : bool :=
  let '(indexA, indexB) := order_loop languageOrder 0 a b (-1) (-1) in
  (* Order both languages as defined in languageOrder *)
  if negb (indexA =? -1)%Z && negb (indexB =? -1)%Z then (indexA <? indexB)%Z
  (* If it is the only language in languageOrder, it comes first *)
  else if negb (indexA =? -1)%Z then true
  else if negb (indexB =? -1)%Z then false
  (* If no language is in languageOrder, sort alphabetically *)
  else match String.compare (Tag_String a) (Tag_String b) with
       | Lt => true
       | _ => false
       end.

End OrderLanguages.

(** The index the loop of [orderLanguages] leaves for one string, and the
    rank of a string: its last position in [languageOrder], or -1. *)
Fixpoint last_index (l : list string) (i : Z) (s : string) (acc : Z) : Z :=
  match l with
  | [] => acc
  | x :: rest => last_index rest (i + 1) s (if (s =? x)%string then i else acc)
  end.

Definition rank (languageOrder : list string) (s : string) : Z :=
  last_index languageOrder 0 s (-1).

(** The initial value of [languageOrder], line 41. *)
Definition languageOrder_init : list string := ["en"].

(** A localizer that knows every message. *)
Definition found_message (c : @LocalizeConfig string) : string * option string :=
  ("Bonjour", None).

End lang.

(* ===================================================================== *)
(** * Part II: theorems *)
(* ===================================================================== *)

(** ** The rectangle fragment shader *)

Module shaders_spec.
Import shaders.

Section AnyFloat.
Context {F : Type} `{GLfloat F}.

(** Whatever the arithmetic, the output is [stroke_color] as soon as one
    of the four tests passes and [fill_color] when none does. *)
Lemma main_by_tests (u : uniforms F) (f : vec4 F) :
  main u f =
  if hit_right u (vx f) || hit_left u (vx f) || hit_bottom u (vy f) || hit_top u (vy f)
  then stroke_color u else fill_color u.
Proof.
  unfold main, hit_right, hit_left, hit_bottom, hit_top.
  destruct (fge (vx f) _); [reflexivity|].
  destruct (fle (vx f) _); [reflexivity|].
  destruct (fle (vy f) _); [reflexivity|].
  destruct (fge (vy f) _); reflexivity.
Qed.

Lemma main_stroke_or_fill (u : uniforms F) (f : vec4 F) :
  main u f = stroke_color u \/ main u f = fill_color u.
Proof. rewrite main_by_tests. destruct (_ || _); auto. Qed.

End AnyFloat.

Local Open Scope Q_scope.

Lemma hit_right_iff (u : uniforms Q) (x : Q) :
  hit_right u x = true <-> x2 u - stroke_width u <= x.
Proof. unfold hit_right, x2; simpl. apply Qle_bool_iff. Qed.

Lemma hit_left_iff (u : uniforms Q) (x : Q) :
  hit_left u x = true <-> x <= x1 u + stroke_width u.
Proof. unfold hit_left, x1; simpl. apply Qle_bool_iff. Qed.

Lemma hit_bottom_iff (u : uniforms Q) (y : Q) :
  hit_bottom u y = true <-> y <= gl_bottom u + stroke_width u.
Proof. unfold hit_bottom, gl_bottom, y2; simpl. apply Qle_bool_iff. Qed.

Lemma hit_top_iff (u : uniforms Q) (y : Q) :
  hit_top u y = true <-> gl_top u - stroke_width u <= y.
Proof. unfold hit_top, gl_top, y1; simpl. apply Qle_bool_iff. Qed.

Lemma tests_in_band (u : uniforms Q) (f : vec4 Q) :
  hit_right u (vx f) || hit_left u (vx f) || hit_bottom u (vy f) || hit_top u (vy f) = true
  <-> in_band u f.
Proof.
  unfold in_band.
  rewrite !orb_true_iff, hit_right_iff, hit_left_iff, hit_bottom_iff, hit_top_iff.
  tauto.
Qed.

Lemma main_in_band (u : uniforms Q) (f : vec4 Q) :
  in_band u f -> main u f = stroke_color u.
Proof.
  intros Hb. apply tests_in_band in Hb. rewrite main_by_tests, Hb. reflexivity.
Qed.

Lemma main_off_band (u : uniforms Q) (f : vec4 Q) :
  ~ in_band u f -> main u f = fill_color u.
Proof.
  intros Hb. rewrite main_by_tests.
  destruct (_ || _) eqn:E; [|reflexivity].
  apply tests_in_band in E. contradiction.
Qed.

Lemma in_band_dec (u : uniforms Q) (f : vec4 Q) : in_band u f \/ ~ in_band u f.
Proof.
  rewrite <- tests_in_band. destruct (_ || _); [left|right]; congruence.
Qed.

Lemma inside_band_near (u : uniforms Q) (f : vec4 Q) :
  inside u f -> (in_band u f <-> near_edge u f).
Proof.
  unfold inside, in_band, near_edge, within. intros [[? ?] [? ?]].
  split; intros [?|[?|[?|?]]].
  - right; left; split; lra.
  - left; split; lra.
  - do 3 right; split; lra.
  - do 2 right; left; split; lra.
  - right; left; lra.
  - left; lra.
  - do 3 right; lra.
  - do 2 right; left; lra.
Qed.

Ltac unfold_geometry :=
  unfold inside, near_edge, in_band, within, gl_top, gl_bottom, x1, x2, y1, y2 in *;
  simpl in *.

(** *** Counting *)

Lemma count_below (n w : nat) :
  length (List.filter (fun k => (k <? n)%nat) (seq 0 w)) = Nat.min n w.
Proof.
  induction w as [|w IH]; [rewrite Nat.min_0_r; reflexivity|].
  rewrite seq_S, List.filter_app, List.length_app, IH. simpl.
  destruct (w <? n)%nat eqn:E; simpl.
  - apply Nat.ltb_lt in E. lia.
  - apply Nat.ltb_ge in E. lia.
Qed.

Lemma count_from (m w : nat) :
  length (List.filter (fun k => (m <=? k)%nat) (seq 0 w)) = (w - m)%nat.
Proof.
  induction w as [|w IH]; [reflexivity|].
  rewrite seq_S, List.filter_app, List.length_app, IH. simpl.
  destruct (m <=? w)%nat eqn:E; simpl.
  - apply Nat.leb_le in E. lia.
  - apply Nat.leb_gt in E. lia.
Qed.

Lemma Qle_bool_reflect (a b : Q) (c : bool) : (a <= b <-> c = true) -> Qle_bool a b = c.
Proof.
  intros Hc. destruct c.
  - apply Qle_bool_iff, Hc. reflexivity.
  - destruct (Qle_bool a b) eqn:E; [|reflexivity].
    apply Qle_bool_iff, Hc in E. discriminate.
Qed.

Local Close Scope Q_scope.
Local Open Scope Z_scope.

(** *** Binary32: the order of the values *)

Lemma digits2_pos_bounds (m : positive) :
  2 ^ (Zpos (digits2_pos m) - 1) <= Zpos m < 2 ^ Zpos (digits2_pos m).
Proof.
  induction m as [m IH|m IH|]; cbn [digits2_pos].
  - rewrite Pos2Z.inj_succ.
    replace (Z.succ (Zpos (digits2_pos m)) - 1) with (Z.succ (Zpos (digits2_pos m) - 1)) by lia.
    rewrite !Z.pow_succ_r by lia. lia.
  - rewrite Pos2Z.inj_succ.
    replace (Z.succ (Zpos (digits2_pos m)) - 1) with (Z.succ (Zpos (digits2_pos m) - 1)) by lia.
    rewrite !Z.pow_succ_r by lia. lia.
  - simpl. lia.
Qed.

(** A valid mantissa has at most 24 bits, and exactly 24 above the least
    exponent. *)
Lemma bounded_facts (m : positive) (e : Z) :
  bounded 24 128 m e = true ->
  -149 <= e /\ Zpos m < 2 ^ 24 /\ (-149 < e -> 2 ^ 23 <= Zpos m).
Proof.
  unfold bounded, canonical_mantissa, fexp, emin. intros Hb.
  apply andb_true_iff in Hb as [Hc _]. apply Z.eqb_eq in Hc.
  pose proof (digits2_pos_bounds m) as [Hlo Hhi].
  set (d := Zpos (digits2_pos m)) in *.
  assert (Hd : 0 < d) by (unfold d; lia).
  split; [lia|]. split.
  - assert (d <= 24) by lia.
    apply Z.lt_le_trans with (2 ^ d); [assumption|].
    apply Z.pow_le_mono_r; lia.
  - intros He. assert (d = 24) as Hd24 by lia. rewrite Hd24 in Hlo. exact Hlo.
Qed.

Lemma positive_order (m1 m2 : positive) (e1 e2 : Z) :
  bounded 24 128 m1 e1 = true -> bounded 24 128 m2 e2 = true ->
  (Zpos m1 * 2 ^ (e1 + 149) ?= Zpos m2 * 2 ^ (e2 + 149)) =
  match e1 ?= e2 with
  | Lt => Lt
  | Gt => Gt
  | Eq => Pos.compare m1 m2
  end.
Proof.
  intros H1 H2.
  destruct (bounded_facts _ _ H1) as (Hl1 & Hu1 & Hn1).
  destruct (bounded_facts _ _ H2) as (Hl2 & Hu2 & Hn2).
  assert (Hstep : forall ma mb ea eb : Z,
            -149 <= ea -> ea < eb -> 0 < ma < 2 ^ 24 -> 2 ^ 23 <= mb ->
            ma * 2 ^ (ea + 149) < mb * 2 ^ (eb + 149)).
  { intros ma mb ea eb Ha Hlt Hma Hmb.
    replace (eb + 149) with ((eb - ea) + (ea + 149)) by lia.
    rewrite (Z.pow_add_r 2 (eb - ea) (ea + 149)) by lia.
    assert (0 < 2 ^ (ea + 149)) by (apply Z.pow_pos_nonneg; lia).
    assert (2 ^ 1 <= 2 ^ (eb - ea)) by (apply Z.pow_le_mono_r; lia).
    change (2 ^ 1) with 2 in *. change (2 ^ 24) with 16777216 in *.
    change (2 ^ 23) with 8388608 in *.
    set (P := 2 ^ (ea + 149)) in *. set (X := 2 ^ (eb - ea)) in *.
    apply Z.lt_le_trans with (16777216 * P).
    - apply Z.mul_lt_mono_pos_r; lia.
    - replace (16777216 * P) with (8388608 * (2 * P)) by lia.
      apply Z.mul_le_mono_nonneg; try lia.
      apply Z.mul_le_mono_nonneg_r; lia. }
  destruct (e1 ?= e2) eqn:E.
  - apply Z.compare_eq in E. subst e2.
    assert (0 < 2 ^ (e1 + 149)) by (apply Z.pow_pos_nonneg; lia).
    destruct (Pos.compare_spec m1 m2) as [Hm|Hm|Hm].
    + subst m2. apply Z.compare_refl.
    + apply Z.compare_lt_iff. apply Z.mul_lt_mono_pos_r; lia.
    + apply Z.compare_gt_iff. apply Z.mul_lt_mono_pos_r; lia.
  - apply -> Z.compare_lt_iff in E. apply Z.compare_lt_iff.
    apply Hstep; [lia | lia | lia | apply Hn2; lia].
  - apply -> Z.compare_gt_iff in E. apply Z.compare_gt_iff.
    apply Hstep; [lia | lia | lia | apply Hn1; lia].
Qed.

(** On binary32 numbers, the comparison of the floats is the comparison
    of the numbers they denote. *)
Lemma SFcompare_B2Z (a b : spec_float) :
  finite32 a = true -> finite32 b = true ->
  SFcompare a b = Some (B2Z a ?= B2Z b).
Proof.
  destruct a as [sa| | |sa ma ea], b as [sb| | |sb mb eb]; try discriminate;
    cbn [finite32 SFcompare B2Z]; intros Ha Hb.
  - reflexivity.
  - destruct (bounded_facts _ _ Hb) as (Hl & _).
    assert (0 < Zpos mb * 2 ^ (eb + 149))
      by (apply Z.mul_pos_pos; [lia | apply Z.pow_pos_nonneg; lia]).
    f_equal. symmetry. destruct sb; cbn [cond_Zopp];
      [apply Z.compare_gt_iff | apply Z.compare_lt_iff]; lia.
  - destruct (bounded_facts _ _ Ha) as (Hl & _).
    assert (0 < Zpos ma * 2 ^ (ea + 149))
      by (apply Z.mul_pos_pos; [lia | apply Z.pow_pos_nonneg; lia]).
    f_equal. symmetry. destruct sa; cbn [cond_Zopp];
      [apply Z.compare_lt_iff | apply Z.compare_gt_iff]; lia.
  - destruct (bounded_facts _ _ Ha) as (Hla & _), (bounded_facts _ _ Hb) as (Hlb & _).
    assert (0 < Zpos ma * 2 ^ (ea + 149))
      by (apply Z.mul_pos_pos; [lia | apply Z.pow_pos_nonneg; lia]).
    assert (0 < Zpos mb * 2 ^ (eb + 149))
      by (apply Z.mul_pos_pos; [lia | apply Z.pow_pos_nonneg; lia]).
    f_equal. destruct sa, sb; cbn [cond_Zopp].
    + rewrite Z.compare_opp, (positive_order mb ma eb ea Hb Ha).
      rewrite (Z.compare_antisym ea eb), (Pos.compare_antisym ma mb).
      unfold Pos.compare. destruct (ea ?= eb); reflexivity.
    + symmetry. apply Z.compare_lt_iff. lia.
    + symmetry. apply Z.compare_gt_iff. lia.
    + rewrite (positive_order ma mb ea eb Ha Hb). reflexivity.
Qed.

Lemma SFleb_B2Z (a b : spec_float) :
  finite32 a = true -> finite32 b = true -> SFleb a b = (B2Z a <=? B2Z b).
Proof.
  intros Ha Hb. unfold SFleb. rewrite (SFcompare_B2Z a b Ha Hb).
  unfold Z.leb. destruct (B2Z a ?= B2Z b); reflexivity.
Qed.

Lemma SFleb_val (a b : spec_float) :
  finite32 a = true -> finite32 b = true ->
  SFleb a b = Qle_bool (val a) (val b).
Proof.
  intros Ha Hb. rewrite (SFleb_B2Z a b Ha Hb).
  unfold Qle_bool, val; cbn [Qnum Qden].
  destruct (Z.leb_spec (B2Z a) (B2Z b)); symmetry.
  - apply Z.leb_le. nia.
  - apply Z.leb_gt. nia.
Qed.

(** *** Binary32: sums and differences that need no rounding *)

Lemma digits2_pos_log2 (m : positive) : Zpos (digits2_pos m) = Z.log2 (Zpos m) + 1.
Proof.
  pose proof (digits2_pos_bounds m) as [Hlo Hhi].
  assert (Z.log2 (Zpos m) = Zpos (digits2_pos m) - 1); [|lia].
  apply Z.log2_unique; [lia|].
  replace (Z.succ (Zpos (digits2_pos m) - 1)) with (Zpos (digits2_pos m)) by lia.
  split; assumption.
Qed.

Lemma iter_xO (m k : positive) : Zpos (Pos.iter xO m k) = Zpos m * 2 ^ Zpos k.
Proof.
  induction k as [|k IH] using Pos.peano_ind.
  - cbn [Pos.iter]. rewrite Pos2Z.inj_xO. change (2 ^ 1) with 2. ring.
  - rewrite Pos.iter_succ, Pos2Z.inj_succ, Z.pow_succ_r by lia.
    rewrite Pos2Z.inj_xO, IH. ring.
Qed.

Lemma digits2_pos_shift (m m' : positive) (k : Z) :
  0 <= k -> Zpos m = Zpos m' * 2 ^ k ->
  Zpos (digits2_pos m) = Zpos (digits2_pos m') + k.
Proof.
  intros Hk Hm. rewrite !digits2_pos_log2, Hm, Z.log2_mul_pow2 by lia. lia.
Qed.

Lemma shr_1_double (z : Z) :
  shr_1 (Build_shr_record (2 * z) false false) = Build_shr_record z false false.
Proof. destruct z; reflexivity. Qed.

Lemma iter_shr_1_exact (n : positive) : forall z : Z,
  SpecFloat.iter_pos shr_1 n (Build_shr_record (z * 2 ^ Zpos n) false false)
  = Build_shr_record z false false.
Proof.
  induction n as [n IH|n IH|]; intros z; cbn [SpecFloat.iter_pos].
  - replace (z * 2 ^ Zpos n~1) with (2 * ((z * 2 ^ Zpos n) * 2 ^ Zpos n)).
    + rewrite shr_1_double, IH, IH. reflexivity.
    + replace (Zpos n~1) with (Zpos n + Zpos n + 1) by lia.
      rewrite (Z.pow_add_r 2 (Zpos n + Zpos n) 1), (Z.pow_add_r 2 (Zpos n) (Zpos n)) by lia.
      change (2 ^ 1) with 2. ring.
  - replace (z * 2 ^ Zpos n~0) with ((z * 2 ^ Zpos n) * 2 ^ Zpos n).
    + rewrite IH, IH. reflexivity.
    + replace (Zpos n~0) with (Zpos n + Zpos n) by lia.
      rewrite (Z.pow_add_r 2 (Zpos n) (Zpos n)) by lia. ring.
  - replace (z * 2 ^ 1) with (2 * z) by (change (2 ^ 1) with 2; ring).
    apply shr_1_double.
Qed.

Lemma binary_round_aux_canonical (s : bool) (m : positive) (e : Z) :
  fexp 24 128 (Zpos (digits2_pos m) + e) = e -> e <= 104 ->
  binary_round_aux 24 128 s (Zpos m) e loc_Exact = S754_finite s m e.
Proof.
  intros Hc He. unfold binary_round_aux, shr_fexp.
  cbn [Zdigits2 shr_record_of_loc]. rewrite Hc, Z.sub_diag.
  cbn [shr loc_of_shr_record shr_m round_nearest_even Zdigits2 shr_record_of_loc].
  rewrite Hc, Z.sub_diag. cbn [shr shr_m].
  replace (e <=? 128 - 24) with true by (symmetry; apply Z.leb_le; lia).
  reflexivity.
Qed.

Lemma binary_round_aux_shift (s : bool) (m m' : positive) (p : positive) (e : Z) :
  Zpos m = Zpos m' * 2 ^ Zpos p ->
  fexp 24 128 (Zpos (digits2_pos m) + e) = e + Zpos p -> e + Zpos p <= 104 ->
  binary_round_aux 24 128 s (Zpos m) e loc_Exact = S754_finite s m' (e + Zpos p).
Proof.
  intros Hm Hc He. unfold binary_round_aux, shr_fexp.
  cbn [Zdigits2 shr_record_of_loc]. rewrite Hc.
  replace (e + Zpos p - e) with (Zpos p) by lia. cbn [shr].
  rewrite Hm, iter_shr_1_exact.
  cbn [loc_of_shr_record shr_m round_nearest_even Zdigits2 shr_record_of_loc].
  pose proof (digits2_pos_shift m m' (Zpos p) ltac:(lia) Hm) as Hd.
  replace (Zpos (digits2_pos m') + (e + Zpos p)) with (Zpos (digits2_pos m) + e) by lia.
  rewrite Hc, Z.sub_diag. cbn [shr shr_m].
  replace (e + Zpos p <=? 128 - 24) with true by (symmetry; apply Z.leb_le; lia).
  reflexivity.
Qed.

Lemma fexp_ge (d : Z) : -149 <= fexp 24 128 d.
Proof. unfold fexp, emin. lia. Qed.

(** Rounding a mantissa that needs no rounding keeps the value. *)
Lemma binary_round_exact (s : bool) (M : positive) (e : Z) :
  let e1 := fexp 24 128 (Zpos (digits2_pos M) + e) in
  -149 <= e -> (e1 <= e \/ (2 ^ (e1 - e) | Zpos M)) -> e1 <= 104 ->
  exists m', binary_round 24 128 s M e = S754_finite s m' e1 /\
             bounded 24 128 m' e1 = true /\
             Zpos m' * 2 ^ (e1 + 149) = Zpos M * 2 ^ (e + 149).
Proof.
  intros e1 He Hd Hmax. unfold binary_round. fold e1.
  pose proof (fexp_ge (Zpos (digits2_pos M) + e)) as Hge. fold e1 in Hge.
  unfold shl_align. destruct (e1 - e) as [|p|p] eqn:Ediff.
  - assert (Hc : fexp 24 128 (Zpos (digits2_pos M) + e) = e) by (fold e1; lia).
    assert (Heq : e1 = e) by lia. clearbody e1. subst e1.
    exists M. rewrite (binary_round_aux_canonical s M e Hc) by lia.
    split; [reflexivity|]. split; [|reflexivity].
    unfold bounded, canonical_mantissa. apply andb_true_iff. split.
    + apply Z.eqb_eq. exact Hc.
    + apply Z.leb_le. lia.
  - destruct Hd as [Hd|[z Hz]]; [lia|].
    assert (Hp : 0 < 2 ^ Zpos p) by (apply Z.pow_pos_nonneg; lia).
    assert (0 < z) by nia. destruct z as [|m'|]; try lia.
    exists m'. assert (e1 = e + Zpos p) as Heq by lia.
    rewrite (binary_round_aux_shift s M m' p e Hz); [| fold e1; lia | lia].
    rewrite Heq. split; [reflexivity|]. split.
    + unfold bounded, canonical_mantissa. apply andb_true_iff. split.
      * apply Z.eqb_eq.
        pose proof (digits2_pos_shift M m' (Zpos p) ltac:(lia) Hz) as Hdg.
        replace (Zpos (digits2_pos m') + (e + Zpos p)) with (Zpos (digits2_pos M) + e) by lia.
        fold e1. lia.
      * apply Z.leb_le. lia.
    + rewrite Hz. replace (e + Zpos p + 149) with (Zpos p + (e + 149)) by lia.
      rewrite (Z.pow_add_r 2 (Zpos p) (e + 149)) by lia. ring.
  - exists (Pos.iter xO M p).
    assert (Hv : Zpos (Pos.iter xO M p) = Zpos M * 2 ^ Zpos p) by apply iter_xO.
    pose proof (digits2_pos_shift _ M (Zpos p) ltac:(lia) Hv) as Hdg.
    assert (Hc : fexp 24 128 (Zpos (digits2_pos (Pos.iter xO M p)) + e1) = e1).
    { replace (Zpos (digits2_pos (Pos.iter xO M p)) + e1) with (Zpos (digits2_pos M) + e) by lia.
      reflexivity. }
    rewrite binary_round_aux_canonical by (assumption || lia).
    split; [reflexivity|]. split.
    + unfold bounded, canonical_mantissa. apply andb_true_iff. split.
      * apply Z.eqb_eq. exact Hc.
      * apply Z.leb_le. lia.
    + rewrite Hv. replace (e + 149) with (Zpos p + (e1 + 149)) by lia.
      rewrite (Z.pow_add_r 2 (Zpos p) (e1 + 149)) by lia. ring.
Qed.

Lemma representable32_pos (M : positive) (e : Z) :
  -149 <= e -> representable32 (Zpos M * 2 ^ (e + 149)) = true ->
  let e1 := fexp 24 128 (Zpos (digits2_pos M) + e) in
  (e1 <= e \/ (2 ^ (e1 - e) | Zpos M)) /\ e1 <= 104.
Proof.
  intros He Hr e1. unfold representable32 in Hr.
  apply andb_true_iff in Hr as [Hlt Hmod].
  apply Z.ltb_lt in Hlt. apply Z.eqb_eq in Hmod.
  assert (Hp : 0 < 2 ^ (e + 149)) by (apply Z.pow_pos_nonneg; lia).
  assert (Hv : 0 < Zpos M * 2 ^ (e + 149)) by lia.
  rewrite Z.abs_eq in Hlt, Hmod by lia.
  rewrite Z.log2_mul_pow2 in Hmod by lia.
  pose proof (digits2_pos_log2 M) as Hd.
  apply Z.log2_lt_pow2 in Hlt; [|assumption].
  rewrite Z.log2_mul_pow2 in Hlt by lia.
  assert (He1 : e1 = Z.max (Zpos (digits2_pos M) + e - 24) (-149)) by reflexivity.
  clearbody e1. split; [|lia].
  destruct (Z_le_gt_dec e1 e) as [Hle|Hgt]; [left; assumption|right].
  replace (Z.max (e + 149 + Z.log2 (Zpos M) - 23) 0) with ((e1 - e) + (e + 149)) in Hmod by lia.
  rewrite (Z.pow_add_r 2 (e1 - e) (e + 149)) in Hmod by lia.
  apply Z.mod_divide in Hmod.
  - apply Z.mul_divide_cancel_r in Hmod; [assumption|lia].
  - assert (0 < 2 ^ (e1 - e)) by (apply Z.pow_pos_nonneg; lia). lia.
Qed.

(** [binary_normalize] returns the very number it is given when that
    number is a binary32 number. *)
Lemma binary_normalize_exact (m e : Z) :
  -149 <= e -> representable32 (m * 2 ^ (e + 149)) = true ->
  finite32 (binary_normalize 24 128 m e false) = true /\
  B2Z (binary_normalize 24 128 m e false) = m * 2 ^ (e + 149).
Proof.
  intros He Hr. destruct m as [|M|M]; cbn [binary_normalize].
  - split; reflexivity.
  - destruct (representable32_pos M e He Hr) as [Hd Hmax].
    destruct (binary_round_exact false M e He Hd Hmax) as (m' & -> & Hb & Hv).
    split; [exact Hb|]. cbn [B2Z cond_Zopp]. exact Hv.
  - assert (Hr' : representable32 (Zpos M * 2 ^ (e + 149)) = true).
    { unfold representable32 in *.
      replace (Z.abs (Zneg M * 2 ^ (e + 149))) with (Z.abs (Zpos M * 2 ^ (e + 149))) in Hr;
        [assumption|].
      change (Zneg M) with (- Zpos M). rewrite Z.mul_opp_l, Z.abs_opp. reflexivity. }
    destruct (representable32_pos M e He Hr') as [Hd Hmax].
    destruct (binary_round_exact true M e He Hd Hmax) as (m' & -> & Hb & Hv).
    split; [exact Hb|]. cbn [B2Z cond_Zopp]. rewrite Hv.
    change (Zneg M) with (- Zpos M). ring.
Qed.

Lemma shl_align_value (mx : positive) (ex ez : Z) :
  ez <= ex -> Zpos (fst (shl_align mx ex ez)) = Zpos mx * 2 ^ (ex - ez).
Proof.
  intros Hle. unfold shl_align. destruct (ez - ex) as [|p|p] eqn:E; cbn [fst].
  - replace (ex - ez) with 0 by lia. change (2 ^ 0) with 1. ring.
  - lia.
  - rewrite iter_xO. replace (ex - ez) with (Zpos p) by lia. reflexivity.
Qed.

Lemma finite_exponent (s : bool) (m : positive) (e : Z) :
  finite32 (S754_finite s m e) = true -> -149 <= e.
Proof. cbn [finite32]. intros Hb. apply bounded_facts in Hb. lia. Qed.

Lemma aligned_value (s : bool) (m : positive) (e ez : Z) :
  -149 <= ez -> ez <= e ->
  cond_Zopp s (Zpos (fst (shl_align m e ez))) * 2 ^ (ez + 149)
  = B2Z (S754_finite s m e).
Proof.
  intros H1 H2. rewrite shl_align_value by assumption. cbn [B2Z].
  replace (e + 149) with ((e - ez) + (ez + 149)) by lia.
  rewrite (Z.pow_add_r 2 (e - ez) (ez + 149)) by lia.
  destruct s; cbn [cond_Zopp]; ring.
Qed.

(** An addition whose exact result is a binary32 number returns it. *)
Lemma SFadd_exact (x y : spec_float) :
  finite32 x = true -> finite32 y = true ->
  representable32 (B2Z x + B2Z y) = true ->
  finite32 (SFadd 24 128 x y) = true /\ B2Z (SFadd 24 128 x y) = B2Z x + B2Z y.
Proof.
  destruct x as [sx| | |sx mx ex], y as [sy| | |sy my ey]; try discriminate;
    intros Hx Hy Hr.
  - destruct sx, sy; split; reflexivity.
  - split; [exact Hy | reflexivity].
  - split; [exact Hx | cbn [SFadd B2Z]; lia].
  - pose proof (finite_exponent _ _ _ Hx) as Hex.
    pose proof (finite_exponent _ _ _ Hy) as Hey.
    cbn [SFadd]. set (ez := Z.min ex ey) in *.
    assert (Hsum : (cond_Zopp sx (Zpos (fst (shl_align mx ex ez)))
                    + cond_Zopp sy (Zpos (fst (shl_align my ey ez)))) * 2 ^ (ez + 149)
                   = B2Z (S754_finite sx mx ex) + B2Z (S754_finite sy my ey)).
    { rewrite Z.mul_add_distr_r, !aligned_value by (unfold ez; lia). reflexivity. }
    rewrite <- Hsum in Hr |- *. apply binary_normalize_exact; [unfold ez; lia | exact Hr].
Qed.

(** A subtraction whose exact result is a binary32 number returns it. *)
Lemma SFsub_exact (x y : spec_float) :
  finite32 x = true -> finite32 y = true ->
  representable32 (B2Z x - B2Z y) = true ->
  finite32 (SFsub 24 128 x y) = true /\ B2Z (SFsub 24 128 x y) = B2Z x - B2Z y.
Proof.
  destruct x as [sx| | |sx mx ex], y as [sy| | |sy my ey]; try discriminate;
    intros Hx Hy Hr.
  - destruct sx, sy; split; reflexivity.
  - split; [exact Hy|]. cbn [SFsub B2Z]. destruct sy; cbn [negb cond_Zopp]; lia.
  - split; [exact Hx | cbn [SFsub B2Z]; lia].
  - pose proof (finite_exponent _ _ _ Hx) as Hex.
    pose proof (finite_exponent _ _ _ Hy) as Hey.
    cbn [SFsub]. set (ez := Z.min ex ey) in *.
    assert (Hsum : (cond_Zopp sx (Zpos (fst (shl_align mx ex ez)))
                    - cond_Zopp sy (Zpos (fst (shl_align my ey ez)))) * 2 ^ (ez + 149)
                   = B2Z (S754_finite sx mx ex) - B2Z (S754_finite sy my ey)).
    { rewrite Z.mul_sub_distr_r, !aligned_value by (unfold ez; lia). reflexivity. }
    rewrite <- Hsum in Hr |- *. apply binary_normalize_exact; [unfold ez; lia | exact Hr].
Qed.

(** Numbers with at most 24 significant bits are binary32 numbers. *)
Lemma representable32_scaled (n k : Z) :
  Z.abs n < 2 ^ 24 -> 0 <= k <= 253 -> representable32 (n * 2 ^ k) = true.
Proof.
  intros Hn Hk. unfold representable32.
  assert (Hp : 0 < 2 ^ k) by (apply Z.pow_pos_nonneg; lia).
  rewrite Z.abs_mul, (Z.abs_eq (2 ^ k)) by lia.
  apply andb_true_iff. split.
  - apply Z.ltb_lt. apply Z.lt_le_trans with (2 ^ 24 * 2 ^ k).
    + apply Z.mul_lt_mono_pos_r; assumption.
    + rewrite <- Z.pow_add_r by lia. apply Z.pow_le_mono_r; lia.
  - apply Z.eqb_eq. destruct (Z.eq_dec n 0) as [->|Hn0].
    + reflexivity.
    + rewrite Z.log2_mul_pow2 by lia.
      assert (Z.log2 (Z.abs n) < 24) by (apply Z.log2_lt_pow2; lia).
      apply Z.mod_divide.
      * assert (0 < 2 ^ Z.max (k + Z.log2 (Z.abs n) - 23) 0)
          by (apply Z.pow_pos_nonneg; lia). lia.
      * apply Z.divide_mul_r.
        exists (2 ^ (k - Z.max (k + Z.log2 (Z.abs n) - 23) 0)).
        rewrite <- Z.pow_add_r by lia. f_equal. lia.
Qed.

Lemma b32_exact (n e : Z) :
  Z.abs n < 2 ^ 24 -> -149 <= e <= 104 ->
  finite32 (b32 n e) = true /\ B2Z (b32 n e) = n * 2 ^ (e + 149).
Proof.
  intros Hn He. apply binary_normalize_exact; [lia|].
  apply representable32_scaled; lia.
Qed.

(** *** Binary32: whole pixels *)

Lemma b32_int (n : Z) : Z.abs n < 2 ^ 24 -> is_int32 (b32 n 0) n.
Proof. intros Hn. apply (b32_exact n 0); lia. Qed.

Lemma pixel_centre32_exact (i : Z) : 0 <= i < 2 ^ 23 -> is_centre32 (pixel_centre32 i) i.
Proof.
  intros Hi. change (2 ^ 23) with 8388608 in Hi.
  apply (b32_exact (2 * i + 1) (-1)); [change (2 ^ 24) with 16777216|]; lia.
Qed.

Lemma SFadd_int (x y : spec_float) (a b : Z) :
  is_int32 x a -> is_int32 y b -> Z.abs (a + b) < 2 ^ 24 ->
  is_int32 (SFadd 24 128 x y) (a + b).
Proof.
  intros [Hx Hxv] [Hy Hyv] Hab. unfold is_int32.
  replace ((a + b) * 2 ^ 149) with (B2Z x + B2Z y) by (rewrite Hxv, Hyv; ring).
  apply SFadd_exact; [assumption|assumption|].
  rewrite Hxv, Hyv, <- Z.mul_add_distr_r. apply representable32_scaled; lia.
Qed.

Lemma SFsub_int (x y : spec_float) (a b : Z) :
  is_int32 x a -> is_int32 y b -> Z.abs (a - b) < 2 ^ 24 ->
  is_int32 (SFsub 24 128 x y) (a - b).
Proof.
  intros [Hx Hxv] [Hy Hyv] Hab. unfold is_int32.
  replace ((a - b) * 2 ^ 149) with (B2Z x - B2Z y) by (rewrite Hxv, Hyv; ring).
  apply SFsub_exact; [assumption|assumption|].
  rewrite Hxv, Hyv, <- Z.mul_sub_distr_r. apply representable32_scaled; lia.
Qed.

(** A pixel centre [i + 1/2] lies below the whole number [n] when
    [i < n], and above it when [n <= i]. *)
Lemma centre_le_int (c x : spec_float) (i n : Z) :
  is_centre32 c i -> is_int32 x n -> SFleb c x = (i <? n).
Proof.
  intros [Hc Hcv] [Hx Hxv]. rewrite (SFleb_B2Z c x Hc Hx), Hcv, Hxv.
  change (2 ^ 149) with (2 * 2 ^ 148).
  assert (Hp : 0 < 2 ^ 148) by reflexivity. set (P := 2 ^ 148) in *.
  destruct (Z.ltb_spec i n); [apply Z.leb_le | apply Z.leb_gt]; nia.
Qed.

Lemma int_le_centre (c x : spec_float) (i n : Z) :
  is_centre32 c i -> is_int32 x n -> SFleb x c = (n <=? i).
Proof.
  intros [Hc Hcv] [Hx Hxv]. rewrite (SFleb_B2Z x c Hx Hc), Hcv, Hxv.
  change (2 ^ 149) with (2 * 2 ^ 148).
  assert (Hp : 0 < 2 ^ 148) by reflexivity. set (P := 2 ^ 148) in *.
  destruct (Z.leb_spec n i); [apply Z.leb_le | apply Z.leb_gt]; nia.
Qed.

Lemma count_hits32_ext (test : spec_float -> bool) (p : nat -> bool) (lo : Z) (n : nat) :
  (forall k, (k < n)%nat -> test (pixel_centre32 (lo + Z.of_nat k)) = p k) ->
  count_hits32 test lo n = length (List.filter p (seq 0 n)).
Proof.
  intros Hp. unfold count_hits32. f_equal. apply List.filter_ext_in.
  intros k Hk. apply in_seq in Hk. apply Hp. lia.
Qed.

Section PixelRect32.
Variables (fw fh px1 py1 : Z) (w h sw : nat) (fill stroke : vec4 spec_float).
Hypothesis (Hx : 0 <= px1) (Hy : 0 <= py1).
Hypothesis (Hw : px1 + Z.of_nat w <= fw) (Hh : py1 + Z.of_nat h <= fh).
Hypothesis (Hfw : fw <= 2 ^ 22) (Hfh : fh <= 2 ^ 22) (Hsw : Z.of_nat sw <= 2 ^ 22).

Let u : uniforms spec_float :=
  pixel_rect32 fw fh px1 (px1 + Z.of_nat w) py1 (py1 + Z.of_nat h) sw fill stroke.

Let row : Z := fh - (py1 + Z.of_nat h).

Ltac small := change (2 ^ 24) with 16777216; change (2 ^ 23) with 8388608;
              change (2 ^ 22) with 4194304 in *; unfold row; lia.

Lemma column_centre (k : nat) :
  (k < w)%nat -> is_centre32 (pixel_centre32 (px1 + Z.of_nat k)) (px1 + Z.of_nat k).
Proof. intros Hk. apply pixel_centre32_exact. small. Qed.

Lemma row_centre (k : nat) :
  (k < h)%nat -> is_centre32 (pixel_centre32 (row + Z.of_nat k)) (row + Z.of_nat k).
Proof. intros Hk. apply pixel_centre32_exact. small. Qed.

Lemma hit_left_pixel32 (k : nat) :
  (k < w)%nat -> hit_left u (pixel_centre32 (px1 + Z.of_nat k)) = (k <? sw)%nat.
Proof.
  intros Hk. unfold hit_left, u, pixel_rect32. cbn [rect_coords stroke_width idx vx fle fadd b32_GLfloat].
  rewrite (centre_le_int _ _ (px1 + Z.of_nat k) (px1 + Z.of_nat sw) (column_centre k Hk)).
  - destruct (Nat.ltb_spec k sw); [apply Z.ltb_lt | apply Z.ltb_ge]; lia.
  - apply SFadd_int; [apply b32_int | apply b32_int |]; small.
Qed.

Lemma hit_right_pixel32 (k : nat) :
  (k < w)%nat -> hit_right u (pixel_centre32 (px1 + Z.of_nat k)) = (w - sw <=? k)%nat.
Proof.
  intros Hk. unfold hit_right, u, pixel_rect32.
  cbn [rect_coords stroke_width idx vy fge fsub b32_GLfloat].
  rewrite (int_le_centre _ _ (px1 + Z.of_nat k) (px1 + Z.of_nat w - Z.of_nat sw)
             (column_centre k Hk)).
  - destruct (Nat.leb_spec (w - sw) k); [apply Z.leb_le | apply Z.leb_gt]; lia.
  - apply SFsub_int; [apply b32_int | apply b32_int |]; small.
Qed.

Lemma hit_bottom_pixel32 (k : nat) :
  (k < h)%nat -> hit_bottom u (pixel_centre32 (row + Z.of_nat k)) = (k <? sw)%nat.
Proof.
  intros Hk. unfold hit_bottom, u, pixel_rect32.
  cbn [rect_coords frame_size stroke_width idx vy vw fle fadd fsub b32_GLfloat].
  rewrite (centre_le_int _ _ (row + Z.of_nat k) (fh - (py1 + Z.of_nat h) + Z.of_nat sw)
             (row_centre k Hk)).
  - destruct (Nat.ltb_spec k sw); [apply Z.ltb_lt | apply Z.ltb_ge]; unfold row; lia.
  - apply SFadd_int; [apply SFsub_int; [apply b32_int | apply b32_int |] | apply b32_int |];
      small.
Qed.

Lemma hit_top_pixel32 (k : nat) :
  (k < h)%nat -> hit_top u (pixel_centre32 (row + Z.of_nat k)) = (h - sw <=? k)%nat.
Proof.
  intros Hk. unfold hit_top, u, pixel_rect32.
  cbn [rect_coords frame_size stroke_width idx vy vz fge fsub b32_GLfloat].
  rewrite (int_le_centre _ _ (row + Z.of_nat k) (fh - py1 - Z.of_nat sw) (row_centre k Hk)).
  - destruct (Nat.leb_spec (h - sw) k); [apply Z.leb_le | apply Z.leb_gt]; unfold row; lia.
  - apply SFsub_int; [apply SFsub_int; [apply b32_int | apply b32_int |] | apply b32_int |];
      small.
Qed.

Lemma band_pixels32 :
  count_hits32 (hit_left u) px1 w = Nat.min sw w /\
  count_hits32 (hit_right u) px1 w = Nat.min sw w /\
  count_hits32 (hit_bottom u) row h = Nat.min sw h /\
  count_hits32 (hit_top u) row h = Nat.min sw h.
Proof.
  rewrite (count_hits32_ext _ _ _ _ hit_left_pixel32),
    (count_hits32_ext _ _ _ _ hit_right_pixel32),
    (count_hits32_ext _ _ _ _ hit_bottom_pixel32),
    (count_hits32_ext _ _ _ _ hit_top_pixel32).
  rewrite !count_below, !count_from. lia.
Qed.

Lemma pixel_colour32 (i j : nat) :
  (i < w)%nat -> (j < h)%nat ->
  main u (pixel32 (px1 + Z.of_nat i) (row + Z.of_nat j)) =
  if in_border w h sw i j then stroke else fill.
Proof.
  intros Hi Hj. rewrite main_by_tests. unfold pixel32. cbn [vx vy].
  rewrite (hit_left_pixel32 i Hi), (hit_right_pixel32 i Hi),
    (hit_bottom_pixel32 j Hj), (hit_top_pixel32 j Hj).
  unfold in_border.
  destruct (i <? sw)%nat, (w - sw <=? i)%nat, (j <? sw)%nat, (h - sw <=? j)%nat; reflexivity.
Qed.

End PixelRect32.

Local Close Scope Z_scope.
Local Open Scope Q_scope.

(** *** Binary32: the shader where nothing is rounded away *)

Lemma exact_le (x c : spec_float) (q : Q) :
  exact x q = true -> finite32 c = true ->
  SFleb c x = Qle_bool (val c) q /\ SFleb x c = Qle_bool q (val c).
Proof.
  unfold exact. intros Hx Hc. apply andb_true_iff in Hx as [Hf Hq].
  apply Qeq_bool_iff in Hq.
  rewrite (SFleb_val c x Hc Hf), (SFleb_val x c Hf Hc). split.
  - apply Qle_bool_reflect. rewrite Qle_bool_iff, Hq. reflexivity.
  - apply Qle_bool_reflect. rewrite Qle_bool_iff, Hq. reflexivity.
Qed.

(** With exact bounds, each test of the float shader is the comparison
    of the numbers. *)
Lemma tests_exact (u : uniforms spec_float) (f : vec4 spec_float) :
  exact_bounds u = true -> finite32 (vx f) = true -> finite32 (vy f) = true ->
  hit_right u (vx f) = hit_right (valu u) (vx (val4 f)) /\
  hit_left u (vx f) = hit_left (valu u) (vx (val4 f)) /\
  hit_bottom u (vy f) = hit_bottom (valu u) (vy (val4 f)) /\
  hit_top u (vy f) = hit_top (valu u) (vy (val4 f)).
Proof.
  unfold exact_bounds. intros He Hfx Hfy.
  apply andb_true_iff in He as [He Ht]. apply andb_true_iff in He as [He Hb].
  apply andb_true_iff in He as [He Hl]. apply andb_true_iff in He as [_ Hr].
  split; [exact (proj2 (exact_le _ _ _ Hr Hfx))|].
  split; [exact (proj1 (exact_le _ _ _ Hl Hfx))|].
  split; [exact (proj1 (exact_le _ _ _ Hb Hfy)) | exact (proj2 (exact_le _ _ _ Ht Hfy))].
Qed.

Lemma tests32_in_band (u : uniforms spec_float) (f : vec4 spec_float) :
  exact_bounds u = true -> finite32 (vx f) = true -> finite32 (vy f) = true ->
  (hit_right u (vx f) || hit_left u (vx f) || hit_bottom u (vy f) || hit_top u (vy f) = true
   <-> in_band (valu u) (val4 f)).
Proof.
  intros He Hfx Hfy. destruct (tests_exact u f He Hfx Hfy) as (-> & -> & -> & ->).
  apply tests_in_band.
Qed.

Lemma main32_in_band (u : uniforms spec_float) (f : vec4 spec_float) :
  exact_bounds u = true -> finite32 (vx f) = true -> finite32 (vy f) = true ->
  in_band (valu u) (val4 f) -> main u f = stroke_color u.
Proof.
  intros He Hfx Hfy Hb. apply (tests32_in_band u f He Hfx Hfy) in Hb.
  rewrite main_by_tests, Hb. reflexivity.
Qed.

Lemma main32_off_band (u : uniforms spec_float) (f : vec4 spec_float) :
  exact_bounds u = true -> finite32 (vx f) = true -> finite32 (vy f) = true ->
  ~ in_band (valu u) (val4 f) -> main u f = fill_color u.
Proof.
  intros He Hfx Hfy Hb. rewrite main_by_tests.
  destruct (_ || _) eqn:E; [|reflexivity].
  apply (tests32_in_band u f He Hfx Hfy) in E. contradiction.
Qed.

(** With exact bounds the float shader and the shader on rationals agree:
    the colour one selects is the colour the other selects. *)
Lemma main_agrees_when_exact (u : uniforms spec_float) (f : vec4 spec_float) :
  exact_bounds u = true -> finite32 (vx f) = true -> finite32 (vy f) = true ->
  val4 (main u f) = main (valu u) (val4 f).
Proof.
  intros He Hfx Hfy. rewrite !main_by_tests.
  destruct (tests_exact u f He Hfx Hfy) as (-> & -> & -> & ->).
  destruct (_ || _); reflexivity.
Qed.

(** Whole numbers are computed exactly: a rectangle of whole pixels in a
    frame of at most [2^22] pixels a side has exact bounds. *)
Lemma val_int (x : spec_float) (n : Z) : is_int32 x n -> val x == inject_Z n.
Proof.
  intros [_ Hv]. unfold val, Qeq, inject_Z; cbn [Qnum Qden]. rewrite Hv.
  change (Z.pos (2 ^ 149)) with (2 ^ 149)%Z. ring.
Qed.

Lemma exact_int (x : spec_float) (n : Z) (q : Q) :
  is_int32 x n -> q == inject_Z n -> exact x q = true.
Proof.
  intros Hx Hq. unfold exact. rewrite (proj1 Hx). apply Qeq_bool_iff.
  rewrite (val_int x n Hx), Hq. reflexivity.
Qed.

Lemma pixel_rect32_exact (fw fh px1 py1 : Z) (w h sw : nat) (fill stroke : vec4 spec_float) :
  (0 <= px1)%Z -> (0 <= py1)%Z ->
  (px1 + Z.of_nat w <= fw)%Z -> (py1 + Z.of_nat h <= fh)%Z ->
  (fw <= 2 ^ 22)%Z -> (fh <= 2 ^ 22)%Z -> (Z.of_nat sw <= 2 ^ 22)%Z ->
  exact_bounds
    (pixel_rect32 fw fh px1 (px1 + Z.of_nat w) py1 (py1 + Z.of_nat h) sw fill stroke) = true.
Proof.
  intros Hx Hy Hw Hh Hfw Hfh Hsw. change (2 ^ 22)%Z with 4194304%Z in *.
  assert (Hi : forall n, (Z.abs n <= 4194304)%Z -> is_int32 (b32 n 0) n)
    by (intros n Hn; apply b32_int; change (2 ^ 24)%Z with 16777216%Z; lia).
  assert (Ifh := Hi fh ltac:(lia)). assert (Isw := Hi (Z.of_nat sw) ltac:(lia)).
  assert (Ix1 := Hi px1 ltac:(lia)). assert (Ix2 := Hi (px1 + Z.of_nat w)%Z ltac:(lia)).
  assert (Iy1 := Hi py1 ltac:(lia)). assert (Iy2 := Hi (py1 + Z.of_nat h)%Z ltac:(lia)).
  unfold exact_bounds, pixel_rect32, x1, x2, y1, y2, gl_top, gl_bottom.
  cbn [valu val4 rect_coords frame_size stroke_width idx vx vy vz vw fadd fsub b32_GLfloat].
  rewrite (proj1 Ifh), (proj1 Isw), (proj1 Ix1), (proj1 Ix2), (proj1 Iy1), (proj1 Iy2).
  cbn [andb].
  apply andb_true_iff; split;
    [apply andb_true_iff; split; [apply andb_true_iff; split|]|].
  - apply (exact_int _ (px1 + Z.of_nat w - Z.of_nat sw)).
    + apply SFsub_int; [assumption|assumption|change (2 ^ 24)%Z with 16777216%Z; lia].
    + rewrite (val_int _ _ Ix2), (val_int _ _ Isw).
      unfold Z.sub. repeat (rewrite inject_Z_plus || rewrite inject_Z_opp). lra.
  - apply (exact_int _ (px1 + Z.of_nat sw)).
    + apply SFadd_int; [assumption|assumption|change (2 ^ 24)%Z with 16777216%Z; lia].
    + rewrite (val_int _ _ Ix1), (val_int _ _ Isw), ?inject_Z_plus. lra.
  - apply (exact_int _ (fh - (py1 + Z.of_nat h) + Z.of_nat sw)).
    + apply SFadd_int; [apply SFsub_int| |]; try assumption;
        change (2 ^ 24)%Z with 16777216%Z; lia.
    + rewrite (val_int _ _ Ifh), (val_int _ _ Iy2), (val_int _ _ Isw).
      unfold Z.sub. repeat (rewrite inject_Z_plus || rewrite inject_Z_opp). lra.
  - apply (exact_int _ (fh - py1 - Z.of_nat sw)).
    + apply SFsub_int; [apply SFsub_int| |]; try assumption;
        change (2 ^ 24)%Z with 16777216%Z; lia.
    + rewrite (val_int _ _ Ifh), (val_int _ _ Iy1), (val_int _ _ Isw).
      unfold Z.sub. repeat (rewrite inject_Z_plus || rewrite inject_Z_opp). lra.
Qed.

(** Comparisons of concrete numbers, by evaluation. *)
Ltac by_evaluation :=
  repeat match goal with
         | |- _ /\ _ => split
         | |- (_ <= _)%Q => apply Qle_bool_iff; vm_compute; reflexivity
         | |- (_ == _)%Q => apply Qeq_bool_iff; vm_compute; reflexivity
         | |- _ = _ => vm_compute; reflexivity
         end.

Ltac refute_by_evaluation H :=
  repeat match type of H with
         | _ \/ _ => destruct H as [H|H]
         | _ /\ _ => let H' := fresh in destruct H as [H H']; try (refute_by_evaluation H')
         end;
  try (apply Qle_bool_iff in H; vm_compute in H; discriminate).

(** *** The claims about the shader *)

(** C1, as stated, fails.  (a) With distinct colours and a stroke of one
    pixel, a fragment left of the rectangle and more than four pixels
    away from every edge is painted in the stroke colour.  (b) When fill
    and stroke colour coincide, the output equals the stroke colour at a
    fragment that passes none of the four comparisons. *)
Lemma stroke_iff_near_edge_fails :
  ~ (main small_rect left_of_small_rect = stroke_color small_rect
     <-> near_edge small_rect left_of_small_rect) /\
  ~ (main one_colour mid_frame = stroke_color one_colour
     <-> in_band one_colour mid_frame).
Proof.
  split.
  - intros [Hn _].
    assert (Hs : main small_rect left_of_small_rect = stroke_color small_rect)
      by reflexivity.
    specialize (Hn Hs). unfold_geometry. lra.
  - intros [Hn _].
    assert (Hs : main one_colour mid_frame = stroke_color one_colour)
      by reflexivity.
    specialize (Hn Hs). unfold_geometry. lra.
Qed.

(** C1, amended: the output is [stroke_color] when the fragment passes
    at least one of the four comparisons of the shader, evaluated in its
    float arithmetic ([x >= x2 - stroke_width], [x <= x1 + stroke_width],
    [y <= frame_size.y - y2 + stroke_width],
    [y >= frame_size.y - y1 - stroke_width], each bound rounded as the
    shader computes it), and [fill_color] otherwise; so the output equals
    [stroke_color] exactly when a comparison passes or the two colour
    uniforms hold the same four floats.  When the four bounds are computed
    without rounding error, a comparison passes exactly when the fragment
    lies on the inner side of an edge at distance at most [stroke_width],
    which for a fragment inside the rectangle is the same as lying within
    [stroke_width] of one of the four edges. *)
Theorem main_stroke_iff_tests (u : uniforms spec_float) (f : vec4 spec_float) :
  let hit :=
    hit_right u (vx f) || hit_left u (vx f) || hit_bottom u (vy f) || hit_top u (vy f) in
  (hit = true -> main u f = stroke_color u) /\
  (hit = false -> main u f = fill_color u) /\
  (main u f = stroke_color u <-> hit = true \/ fill_color u = stroke_color u) /\
  (exact_bounds u = true -> finite32 (vx f) = true -> finite32 (vy f) = true ->
   (hit = true <-> in_band (valu u) (val4 f)) /\
   (inside (valu u) (val4 f) -> (hit = true <-> near_edge (valu u) (val4 f)))).
Proof.
  intros hit. pose proof (main_by_tests u f) as Hm. fold hit in Hm.
  split; [intros Hh; rewrite Hm, Hh; reflexivity|].
  split; [intros Hh; rewrite Hm, Hh; reflexivity|].
  split.
  - rewrite Hm. destruct hit.
    + split; [left; reflexivity | reflexivity].
    + split; [intros Hc; right; exact Hc | intros [Hc|Hc]; [discriminate | exact Hc]].
  - intros He Hfx Hfy. pose proof (tests32_in_band u f He Hfx Hfy) as Hb. fold hit in Hb.
    split; [exact Hb|]. intros Hin. rewrite Hb. apply inside_band_near. exact Hin.
Qed.

Lemma main_stroke_iff_tests_witness :
  main scenario32 (pixel32 1 25) = black32 /\
  main scenario32 (pixel32 50 25) = red32 /\
  near_edge (valu scenario32) (val4 (pixel32 1 25)).
Proof.
  destruct (main_stroke_iff_tests scenario32 (pixel32 1 25)) as (H1 & _ & _ & H4).
  destruct (main_stroke_iff_tests scenario32 (pixel32 50 25)) as (_ & H2 & _).
  split; [apply H1; vm_compute; reflexivity|].
  split; [apply H2; vm_compute; reflexivity|].
  assert (He : exact_bounds scenario32 = true) by (vm_compute; reflexivity).
  assert (Hx : finite32 (vx (pixel32 1 25)) = true) by (vm_compute; reflexivity).
  assert (Hy : finite32 (vy (pixel32 1 25)) = true) by (vm_compute; reflexivity).
  destruct (H4 He Hx Hy) as [_ Hn]. apply Hn.
  - unfold inside. by_evaluation.
  - vm_compute. reflexivity.
Defined.

(** Rounding moves a band.  In [rounded_rect] the left bound
    [x1 + stroke_width] is 0.7f + 1.8f, a number below 2.5 that the
    addition rounds up to 2.5: the fragment at x = 2.5 lies inside the
    rectangle, farther than the stroke width from every edge, and is
    painted in the stroke colour. *)
Lemma rounding_moves_the_band :
  fadd (idx (rect_coords rounded_rect) 0) (stroke_width rounded_rect) = pixel_centre32 2 /\
  exact_bounds rounded_rect = false /\
  inside (valu rounded_rect) (val4 (pixel32 2 50)) /\
  ~ near_edge (valu rounded_rect) (val4 (pixel32 2 50)) /\
  main rounded_rect (pixel32 2 50) = stroke_color rounded_rect.
Proof.
  split; [vm_compute; reflexivity|].
  split; [vm_compute; reflexivity|].
  split; [unfold inside; by_evaluation|].
  split; [|vm_compute; reflexivity].
  unfold near_edge, within. intros H. refute_by_evaluation H.
Qed.

(** *** Stroke bands counted in device pixels, in binary32 *)

(** C2, as stated, fails.  (a) On a rectangle of 10 x 10 pixels with a
    stroke of 20 every band covers 10 columns or rows, not 20.  (b) On a
    rectangle whose edges pass through pixel centres ([half_pixel_rect])
    a stroke of 1 paints two columns and two rows along each edge, and a
    stroke of 0 still paints one.  (c) On a rectangle whose columns lie
    beyond [2^24], where binary32 no longer tells neighbouring pixels
    apart, a stroke of 3 paints all 4 columns. *)
Lemma border_width_fails :
  (ordered_rect (valu (pixel_rect32 10 10 0 10 0 10 20 red32 black32)) /\
   ~ border_of_width (pixel_rect32 10 10 0 10 0 10 20 red32 black32) 0 0 10 10 20 /\
   count_hits32 (hit_left (pixel_rect32 10 10 0 10 0 10 20 red32 black32)) 0 10 = 10%nat) /\
  (ordered_rect (valu (half_pixel_rect 1)) /\
   ~ border_of_width (half_pixel_rect 1) 0 0 11 11 1 /\
   count_hits32 (hit_left (half_pixel_rect 1)) 0 11 = 2%nat) /\
  (ordered_rect (valu (half_pixel_rect 0)) /\
   ~ border_of_width (half_pixel_rect 0) 0 0 11 11 0 /\
   count_hits32 (hit_left (half_pixel_rect 0)) 0 11 = 1%nat) /\
  (ordered_rect (valu far_rect) /\
   ~ border_of_width far_rect (2 ^ 24) (2 ^ 24) 4 4 3 /\
   count_hits32 (hit_left far_rect) (2 ^ 24) 4 = 4%nat).
Proof.
  repeat match goal with
         | |- _ /\ _ => split
         | |- ordered_rect _ => unfold ordered_rect; by_evaluation
         | |- ~ border_of_width _ _ _ _ _ _ =>
             let H := fresh in intros [H _]; vm_compute in H; discriminate
         | |- _ = _ => vm_compute; reflexivity
         end.
Qed.

(** C2, amended: for a rectangle of [w] x [h] whole device pixels that
    lies in a frame of at most [2^22] pixels a side, with a stroke of
    [sw] whole pixels (at most [2^22]), fragments being taken at pixel
    centres and all arithmetic being binary32: the left and the right
    band each cover [min sw w] pixel columns of the rectangle and the
    bottom and the top band each cover [min sw h] pixel rows, so that the
    border is exactly [sw] pixels wide on all four sides whenever
    [sw <= w] and [sw <= h], including [sw = 0]; and a pixel of the
    rectangle is painted in the stroke colour when it lies in one of
    these bands and in the fill colour otherwise. *)
Theorem border_in_device_pixels (fw fh px1 py1 : Z) (w h sw : nat)
    (fill stroke : vec4 spec_float) :
  let u := pixel_rect32 fw fh px1 (px1 + Z.of_nat w) py1 (py1 + Z.of_nat h) sw fill stroke in
  let row := (fh - (py1 + Z.of_nat h))%Z in
  (0 <= px1)%Z -> (0 <= py1)%Z ->
  (px1 + Z.of_nat w <= fw)%Z -> (py1 + Z.of_nat h <= fh)%Z ->
  (fw <= 2 ^ 22)%Z -> (fh <= 2 ^ 22)%Z -> (Z.of_nat sw <= 2 ^ 22)%Z ->
  (count_hits32 (hit_left u) px1 w = Nat.min sw w /\
   count_hits32 (hit_right u) px1 w = Nat.min sw w /\
   count_hits32 (hit_bottom u) row h = Nat.min sw h /\
   count_hits32 (hit_top u) row h = Nat.min sw h) /\
  ((sw <= w)%nat -> (sw <= h)%nat -> border_of_width u px1 row w h sw) /\
  (forall i j : nat, (i < w)%nat -> (j < h)%nat ->
     main u (pixel32 (px1 + Z.of_nat i) (row + Z.of_nat j)) =
     if in_border w h sw i j then stroke else fill).
Proof.
  intros u row Hx Hy Hw Hh Hfw Hfh Hsw.
  pose proof (band_pixels32 fw fh px1 py1 w h sw fill stroke Hx Hy Hw Hh Hfw Hfh Hsw) as Hb.
  fold u row in Hb.
  split; [exact Hb|]. split.
  - intros Hsw_w Hsw_h. unfold border_of_width.
    destruct Hb as (-> & -> & -> & ->). repeat split; lia.
  - intros i j Hi Hj.
    apply (pixel_colour32 fw fh px1 py1 w h sw fill stroke Hx Hy Hw Hh Hfw Hfh Hsw i j Hi Hj).
Qed.

Lemma border_in_device_pixels_witness :
  border_of_width (pixel_rect32 10 10 0 10 0 10 3 red32 black32) 0 0 10 10 3 /\
  main (pixel_rect32 10 10 0 10 0 10 3 red32 black32) (pixel32 2 5) = black32 /\
  main (pixel_rect32 10 10 0 10 0 10 3 red32 black32) (pixel32 3 5) = red32.
Proof.
  destruct (border_in_device_pixels 10 10 0 0 10 10 3 red32 black32) as (_ & Hw & Hc);
    [vm_compute; discriminate ..|].
  split; [apply Hw; lia|].
  split; [apply (Hc 2%nat 5%nat); lia | apply (Hc 3%nat 5%nat); lia].
Defined.






(** On rectangles of whole pixels no rounding occurs, and C3 holds as it
    is stated: with a stroke of at least half the smaller side, every
    pixel of the rectangle is painted in the stroke colour. *)
Lemma wide_stroke_covers_pixels (fw fh px1 py1 : Z) (w h sw : nat)
    (fill stroke : vec4 spec_float) (i j : nat) :
  (0 <= px1)%Z -> (0 <= py1)%Z ->
  (px1 + Z.of_nat w <= fw)%Z -> (py1 + Z.of_nat h <= fh)%Z ->
  (fw <= 2 ^ 22)%Z -> (fh <= 2 ^ 22)%Z -> (Z.of_nat sw <= 2 ^ 22)%Z ->
  (Nat.min w h <= 2 * sw)%nat -> (i < w)%nat -> (j < h)%nat ->
  main (pixel_rect32 fw fh px1 (px1 + Z.of_nat w) py1 (py1 + Z.of_nat h) sw fill stroke)
       (pixel32 (px1 + Z.of_nat i) (fh - (py1 + Z.of_nat h) + Z.of_nat j)) = stroke.
Proof.
  intros Hx Hy Hw Hh Hfw Hfh Hsw Hm Hi Hj.
  rewrite (pixel_colour32 fw fh px1 py1 w h sw fill stroke Hx Hy Hw Hh Hfw Hfh Hsw i j Hi Hj).
  unfold in_border.
  destruct (Nat.ltb_spec i sw); [reflexivity|].
  destruct (Nat.leb_spec (w - sw) i); [reflexivity|].
  destruct (Nat.ltb_spec j sw); [reflexivity|].
  destruct (Nat.leb_spec (h - sw) j); [reflexivity|]. lia.
Qed.

(** C4: in the scenario (rectangle (0, 100, 0, 50), stroke width 2, frame
    100 x 50, red fill, black stroke) every fragment within 2 pixels of
    one of the four edges is black, and every fragment inside the
    rectangle that is farther than 2 pixels from all four edges is red. *)
Theorem scenario_colours (f : vec4 Q) :
  (near_edge scenario f -> main scenario f = black) /\
  (inside scenario f -> ~ near_edge scenario f -> main scenario f = red).
Proof.
  split.
  - intros Hn. apply (main_in_band scenario). unfold_geometry. lra.
  - intros Hin Hn. apply (main_off_band scenario).
    rewrite (inside_band_near scenario f Hin). assumption.
Qed.

Lemma scenario_colours_witness :
  main scenario (Vec4 99 10 0 1) = black /\ main scenario mid_frame = red.
Proof.
  split.
  - apply (scenario_colours (Vec4 99 10 0 1)). unfold_geometry. lra.
  - apply (scenario_colours mid_frame); unfold_geometry; lra.
Defined.

(** The same scenario evaluated in binary32 at the centre of each of the
    5000 pixels of the frame: the two outermost pixels on every side are
    black, all others red. *)
Lemma scenario32_pixels :
  map (fun p => main scenario32 (centre32 (fst p) (snd p))) (pixels 100 50) =
  map (fun p =>
         if (fst p <? 2)%nat || (98 <=? fst p)%nat || (snd p <? 2)%nat || (48 <=? snd p)%nat
         then black32 else red32) (pixels 100 50).
Proof. vm_compute. reflexivity. Qed.

(** *** Stroke bands counted in device pixels *)


Section PixelRect.
Variables (fh px1 py1 : Z) (w h sw : nat) (fill stroke : vec4 Q).

Let u : uniforms Q :=
  pixel_rect fh px1 (px1 + Z.of_nat w) py1 (py1 + Z.of_nat h) sw fill stroke.






End PixelRect.

(** *** Further properties of the shader *)

(** X1: whatever the float arithmetic does (rounding, comparisons that
    fail), the shader outputs one of its two colour uniforms and nothing
    else. *)
Theorem main_outputs_a_uniform {F : Type} `{GLfloat F} (u : uniforms F) (f : vec4 F) :
  main u f = stroke_color u \/ main u f = fill_color u.
Proof. apply main_stroke_or_fill. Qed.

(** X2: when the four bounds are computed without rounding error, a
    fragment that the user interface (origin at the top left) places at
    [(x, y)], that is at height [frame_size.y - y] in fragment space, is
    painted in the stroke colour when [x >= x2 - stroke_width],
    [x <= x1 + stroke_width], [y >= y2 - stroke_width] or
    [y <= y1 + stroke_width], and in the fill colour otherwise: after the
    vertical flip the shader treats [y] against [y1], [y2] as it treats
    [x] against [x1], [x2], and the frame height drops out. *)
Theorem main_in_ui_coordinates_when_exact
    (u : uniforms spec_float) (f : vec4 spec_float) (x y : Q) :
  exact_bounds u = true -> finite32 (vx f) = true -> finite32 (vy f) = true ->
  val (vx f) == x -> val (vy f) == vy (frame_size (valu u)) - y ->
  (ui_band (valu u) x y -> main u f = stroke_color u) /\
  (~ ui_band (valu u) x y -> main u f = fill_color u).
Proof.
  intros He Hfx Hfy Hx Hy.
  assert (Hb : in_band (valu u) (val4 f) <-> ui_band (valu u) x y).
  { unfold in_band, ui_band, gl_top, gl_bottom.
    change (vx (val4 f)) with (val (vx f)). change (vy (val4 f)) with (val (vy f)).
    rewrite Hx, Hy.
    split; intros [?|[?|[?|?]]].
    - left; lra.
    - right; left; lra.
    - do 2 right; left; lra.
    - do 3 right; lra.
    - left; lra.
    - right; left; lra.
    - do 2 right; left; lra.
    - do 3 right; lra. }
  split; intros H0.
  - apply (main32_in_band u f He Hfx Hfy), Hb, H0.
  - apply (main32_off_band u f He Hfx Hfy). tauto.
Qed.

Lemma main_in_ui_coordinates_when_exact_witness :
  main scenario32 (pixel32 50 48) = black32 /\
  main scenario32 (pixel32 50 25) = red32.
Proof.
  assert (He : exact_bounds scenario32 = true) by (vm_compute; reflexivity).
  assert (Hx : forall j, val (vx (pixel32 50 j)) == 101 # 2)
    by (intros j; by_evaluation).
  destruct (main_in_ui_coordinates_when_exact scenario32 (pixel32 50 48) (101 # 2) (3 # 2))
    as [H1 _]; [exact He | vm_compute; reflexivity | vm_compute; reflexivity
               | apply Hx | by_evaluation |].
  destruct (main_in_ui_coordinates_when_exact scenario32 (pixel32 50 25) (101 # 2) (49 # 2))
    as [_ H2]; [exact He | vm_compute; reflexivity | vm_compute; reflexivity
               | apply Hx | by_evaluation |].
  split.
  - apply H1. unfold ui_band. do 3 right. by_evaluation.
  - apply H2. unfold ui_band. intros H. refute_by_evaluation H.
Defined.



(** X4: when nothing is rounded away, the colour depends only on where
    the fragment lies relative to the rectangle: for two settings of the
    uniforms with exact bounds, the same colours and the same stroke
    width and frame height, the second rectangle being the first
    displaced by [(dx, dy)] ([dy] counted downwards, as the user
    interface does), a fragment displaced likewise receives the same
    colour. *)
Theorem main_translation_invariant_when_exact
    (u u' : uniforms spec_float) (f f' : vec4 spec_float) (dx dy : Q) :
  exact_bounds u = true -> exact_bounds u' = true ->
  finite32 (vx f) = true -> finite32 (vy f) = true ->
  finite32 (vx f') = true -> finite32 (vy f') = true ->
  moved (valu u) (valu u') dx dy ->
  val (vx f') == val (vx f) + dx -> val (vy f') == val (vy f) - dy ->
  fill_color u' = fill_color u -> stroke_color u' = stroke_color u ->
  main u' f' = main u f.
Proof.
  intros He He' Hfx Hfy Hfx' Hfy' (Hh & H1 & H2 & H3 & H4 & Hs) Hx Hy Hfill Hstroke.
  assert (Hb : in_band (valu u') (val4 f') <-> in_band (valu u) (val4 f)).
  { unfold in_band, gl_top, gl_bottom.
    change (vx (val4 f')) with (val (vx f')). change (vy (val4 f')) with (val (vy f')).
    change (vx (val4 f)) with (val (vx f)). change (vy (val4 f)) with (val (vy f)).
    rewrite Hx, Hy, Hh, H1, H2, H3, H4, Hs.
    split; intros [?|[?|[?|?]]];
      first [left; lra | right; left; lra | do 2 right; left; lra | do 3 right; lra]. }
  destruct (in_band_dec (valu u) (val4 f)) as [H|H].
  - rewrite (main32_in_band u f He Hfx Hfy H), (main32_in_band u' f' He' Hfx' Hfy') by tauto.
    assumption.
  - rewrite (main32_off_band u f He Hfx Hfy H), (main32_off_band u' f' He' Hfx' Hfy') by tauto.
    assumption.
Qed.

Lemma main_translation_invariant_when_exact_witness :
  main (pixel_rect32 100 100 13 23 15 25 2 red32 black32) (pixel32 14 80) =
  main (pixel_rect32 100 100 10 20 10 20 2 red32 black32) (pixel32 11 85).
Proof.
  apply (main_translation_invariant_when_exact
           (pixel_rect32 100 100 10 20 10 20 2 red32 black32)
           (pixel_rect32 100 100 13 23 15 25 2 red32 black32)
           (pixel32 11 85) (pixel32 14 80) 3 5);
    try (vm_compute; reflexivity).
  unfold moved. by_evaluation.
Defined.


End shaders_spec.

(** ** Package [commands] *)

Module commands_spec.
Import commands.

(** *** Strings: [Split], [Join], [substring] *)

Lemma Split_not_nil (s : string) (c : ascii) : Split s c <> [].
Proof.
  destruct s as [|a s]; simpl; [discriminate|].
  destruct (Ascii.eqb a c); [discriminate|].
  destruct (Split s c); discriminate.
Qed.

(** Joining what [Split] produced gives the string back. *)
Lemma Join_Split (s : string) (c : ascii) : Join (Split s c) (String c "") = s.
Proof.
  induction s as [|a s IH]; [reflexivity|]. simpl.
  destruct (Ascii.eqb a c) eqn:E.
  - apply Ascii.eqb_eq in E. subst a.
    pose proof (Split_not_nil s c) as Hn.
    destruct (Split s c) as [|h t]; [contradiction|].
    change (Join ("" :: h :: t) (String c "")) with (String c (Join (h :: t) (String c ""))).
    rewrite IH. reflexivity.
  - pose proof (Split_not_nil s c) as Hn.
    destruct (Split s c) as [|h t]; [contradiction|].
    destruct t as [|h' t].
    + simpl in *. rewrite IH. reflexivity.
    + change (Join (String a h :: h' :: t) (String c ""))
        with (String a (Join (h :: h' :: t) (String c ""))).
      rewrite IH. reflexivity.
Qed.

Lemma contains_app (c : ascii) (a b : string) :
  contains c (a +:+ b) = contains c a || contains c b.
Proof.
  induction a as [|x a IH]; [reflexivity|]. simpl. rewrite IH. apply orb_assoc.
Qed.

Lemma Split_no_sep (a : string) (c : ascii) : contains c a = false -> Split a c = [a].
Proof.
  induction a as [|x a IH]; [reflexivity|]. simpl. intros Hc.
  apply orb_false_iff in Hc as [Hx Ha]. rewrite Hx, (IH Ha). reflexivity.
Qed.

Lemma Split_app_sep (a b : string) (c : ascii) :
  contains c a = false -> Split (a +:+ String c b) c = a :: Split b c.
Proof.
  induction a as [|x a IH]; simpl; intros Hc.
  - rewrite Ascii.eqb_refl. reflexivity.
  - apply orb_false_iff in Hc as [Hx Ha]. rewrite Hx, (IH Ha). reflexivity.
Qed.

(** No piece produced by [Split] contains the separator. *)
Lemma Split_pieces (s : string) (c : ascii) (p : string) :
  In p (Split s c) -> contains c p = false.
Proof.
  revert p. induction s as [|a s IH]; simpl; intros p Hp.
  - destruct Hp as [<-|[]]. reflexivity.
  - destruct (Ascii.eqb a c) eqn:E.
    + destruct Hp as [<-|Hp]; [reflexivity|auto].
    + pose proof (Split_not_nil s c) as Hn.
      destruct (Split s c) as [|h t]; [contradiction|].
      destruct Hp as [<-|Hp].
      * simpl. rewrite E. apply IH. left. reflexivity.
      * apply IH. right. assumption.
Qed.

Lemma substring_0_0 (s : string) : substring 0 0 s = "".
Proof. destruct s; reflexivity. Qed.

Lemma substring_0_app (a b : string) : substring 0 (String.length a) (a +:+ b) = a.
Proof.
  induction a as [|x a IH]; simpl; [apply substring_0_0|]. rewrite IH. reflexivity.
Qed.

Lemma length_app (a b : string) :
  String.length (a +:+ b) = (String.length a + String.length b)%nat.
Proof. induction a as [|x a IH]; simpl; [reflexivity|]. rewrite IH. reflexivity. Qed.

(** A string is its prefix of [n] bytes followed by the remaining ones. *)
Lemma substring_prefix (s : string) (n : nat) :
  (n <= String.length s)%nat ->
  exists t, s = substring 0 n s +:+ t /\ String.length t = (String.length s - n)%nat.
Proof.
  revert n. induction s as [|x s IH]; intros n Hn.
  - simpl in Hn. assert (n = 0%nat) as -> by lia. exists "". split; reflexivity.
  - destruct n as [|n].
    + exists (String x s). split; reflexivity.
    + simpl in Hn. destruct (IH n ltac:(lia)) as [t [Ht Hl]].
      exists t. split; [|exact Hl].
      change (String x s = String x (substring 0 n s +:+ t)). rewrite <- Ht. reflexivity.
Qed.

Lemma append_assoc (a b c : string) : (a +:+ b) +:+ c = a +:+ (b +:+ c).
Proof.
  induction a as [|x a IH]; [reflexivity|].
  change (String x ((a +:+ b) +:+ c) = String x (a +:+ (b +:+ c))).
  f_equal. exact IH.
Qed.

Example Split_examples :
  Split "" "," = [""] /\ Split "debug,gles" "," = ["debug"; "gles"] /\
  Split ",a,,b," "," = [""; "a"; ""; "b"; ""] /\
  Split "go version go1.17.3 linux/amd64" " " = ["go"; "version"; "go1.17.3"; "linux/amd64"].
Proof. repeat split. Qed.

Example Join_examples :
  Join [] "," = "" /\ Join ["release"] "," = "release" /\
  Join ["debug"; "gles"; "release"] "," = "debug,gles,release".
Proof. repeat split. Qed.

(** *** [checkVersion] *)

Lemma go_version_output_fields (v tail platform : string) :
  go_version_output v tail platform =
  "go" +:+ String " " ("version" +:+ String " " (("go" +:+ v +:+ tail) +:+ String " " platform)).
Proof.
  unfold go_version_output. rewrite !append_assoc. reflexivity.
Qed.

Lemma Split_go_version (v tail platform : string) :
  well_formed v tail platform ->
  Split (go_version_output v tail platform) " " = ["go"; "version"; "go" +:+ v +:+ tail; platform].
Proof.
  intros (_ & _ & Hv & Ht & Hp).
  rewrite go_version_output_fields.
  rewrite Split_app_sep by reflexivity.
  rewrite Split_app_sep by reflexivity.
  rewrite Split_app_sep.
  - rewrite (Split_no_sep platform) by assumption. reflexivity.
  - change ("go" +:+ v +:+ tail) with (String "g" (String "o" (v +:+ tail))).
    simpl. rewrite contains_app, Hv, Ht. reflexivity.
Qed.

(** On a well-formed output the version handed to the constraint is [v]
    (normalised by the go-version library). *)
Lemma checkVersion_well_formed (w : World) (vc : ConstraintGroup) (v tail platform : string) :
  well_formed v tail platform ->
  checkVersion w (go_version_output v tail platform) vc =
  if Match vc (version_Normalize w v) then None
  else Some (Errorf ("expected go version " +:+ GetConstraints vc +:+ " got `"
                     +:+ version_Normalize w v +:+ "`")).
Proof.
  intros Hwf. pose proof Hwf as (Hl & Hv & _).
  unfold checkVersion. rewrite (Split_go_version _ _ _ Hwf).
  change (nth 2 ["go"; "version"; "go" +:+ v +:+ tail; platform] "")
    with (String "g" (String "o" (v +:+ tail))).
  change (nth 0 ["go"; "version"; "go" +:+ v +:+ tail; platform] "") with "go".
  change (nth 1 ["go"; "version"; "go" +:+ v +:+ tail; platform] "") with "version".
  assert (Hlen : String.length (String "g" (String "o" (v +:+ tail)))
                 = (String.length v + 4)%nat).
  { simpl. rewrite length_app. lia. }
  rewrite Hlen.
  replace (String.length v + 4 - 2 - 2)%nat with (String.length v) by lia.
  assert (H5 : (String.length v + 4 <? 5)%nat = false) by (apply Nat.ltb_ge; lia).
  rewrite H5.
  change (substring 0 2 (String "g" (String "o" (v +:+ tail))))
    with (String "g" (String "o" (substring 0 0 (v +:+ tail)))).
  rewrite substring_0_0.
  change (substring 2 (String.length v) (String "g" (String "o" (v +:+ tail))))
    with (substring 0 (String.length v) (v +:+ tail)).
  rewrite substring_0_app.
  simpl. destruct (Match vc (version_Normalize w v)); reflexivity.
Qed.

(** An output either draws the invalid-output error or is well formed. *)
Lemma checkVersion_shape (w : World) (vc : ConstraintGroup) (output : string) :
  checkVersion w output vc = Some (invalid_output output) \/
  exists v tail platform,
    well_formed v tail platform /\ output = go_version_output v tail platform.
Proof.
  unfold checkVersion, invalid_output.
  pose proof (Join_Split output " ") as Hj.
  pose proof (Split_pieces output " ") as Hp.
  destruct (Split output " ") as [|a [|b [|c [|d [|e l]]]]]; simpl length;
    try (left; reflexivity).
  simpl nth. cbn [Nat.eqb negb orb].
  destruct (a =? "go")%string eqn:Ea; cbn [negb orb]; [|left; reflexivity].
  destruct (b =? "version")%string eqn:Eb; cbn [negb orb]; [|left; reflexivity].
  destruct (String.length c <? 5)%nat eqn:El; cbn [negb orb]; [left; reflexivity|].
  destruct (substring 0 2 c =? "go")%string eqn:Eg; cbn [negb orb]; [|left; reflexivity].
  right.
  apply String.eqb_eq in Ea, Eb, Eg. apply Nat.ltb_ge in El. subst a b.
  destruct c as [|c0 [|c1 c']]; try (simpl in El; lia).
  simpl in Eg. rewrite substring_0_0 in Eg. injection Eg as -> ->.
  simpl in El.
  destruct (substring_prefix c' (String.length c' - 2) ltac:(lia)) as [tail [Hc' Hl]].
  exists (substring 0 (String.length c' - 2) c'), tail, d.
  assert (Hcc : contains " " (String "g" (String "o" c')) = false)
    by (apply Hp; simpl; auto).
  assert (Hcd : contains " " d = false) by (apply Hp; simpl; auto).
  simpl in Hcc. rewrite Hc', contains_app in Hcc. apply orb_false_iff in Hcc as [Hcv Hct].
  assert (Hlv : String.length (substring 0 (String.length c' - 2) c') = (String.length c' - 2)%nat).
  { pose proof (f_equal String.length Hc') as Hll. rewrite length_app in Hll. lia. }
  split.
  - unfold well_formed. repeat split; try assumption; lia.
  - rewrite go_version_output_fields, <- Hc', <- Hj. reflexivity.
Qed.

(** C8: an output "go version go<v><tail> <platform>" (four fields; the
    third starts with "go" and is at least 5 bytes long, so that [tail], its
    last two bytes, leaves a non-empty [v]) is checked as version [v]: the
    third field without its "go" prefix and without its last two bytes; "go
    version go1.17.3 linux/amd64" is checked as "1.17".  Every other output
    is rejected with the invalid-output error. *)
Theorem checkVersion_drops_two_bytes (w : World) (vc : ConstraintGroup) :
  (forall v tail platform,
     well_formed v tail platform ->
     checkVersion w (go_version_output v tail platform) vc =
     if Match vc (version_Normalize w v) then None
     else Some (Errorf ("expected go version " +:+ GetConstraints vc +:+ " got `"
                        +:+ version_Normalize w v +:+ "`"))) /\
  (go_version_output "1.17" ".3" "linux/amd64" = "go version go1.17.3 linux/amd64" /\
   well_formed "1.17" ".3" "linux/amd64") /\
  (forall output,
     (forall v tail platform,
        well_formed v tail platform -> output <> go_version_output v tail platform) ->
     checkVersion w output vc = Some (invalid_output output)).
Proof.
  split; [apply checkVersion_well_formed|].
  split; [split; [reflexivity | repeat split; simpl; lia]|].
  intros output Hno.
  destruct (checkVersion_shape w vc output) as [Hi|(v & tail & p & Hwf & Ho)];
    [assumption|].
  exfalso. exact (Hno v tail p Hwf Ho).
Qed.

Lemma checkVersion_drops_two_bytes_witness :
  checkVersion example_world "go version go1.17.3 linux/amd64"
    (version_NewConstrainGroupFromString example_world ">=1.17") = None /\
  checkVersion example_world "go1.17.3"
    (version_NewConstrainGroupFromString example_world ">=1.17")
  = Some (invalid_output "go1.17.3").
Proof.
  pose proof (checkVersion_drops_two_bytes example_world
                (version_NewConstrainGroupFromString example_world ">=1.17"))
    as (Hv & _ & Hi).
  split.
  - apply (Hv "1.17" ".3" "linux/amd64"). repeat split; simpl; lia.
  - apply Hi. intros v tail platform _. discriminate.
Defined.

(** *** [build] and [Build] *)

(** The argument list of [build], piece by piece. *)
Lemma build_args_parts (b : Builder) (goos : string) :
  build_args b goos =
  args_around goos b
    (match tags b ++ (if release b then ["release"] else []) with
     | [] => []
     | tl => [tags_flag goos; Join tl ","]
     end).
Proof.
  unfold build_args, args_around, ldflags_part, output_part, package_part, tags_flag.
  replace (if release b then tags b ++ ["release"] else tags b)
    with (tags b ++ (if release b then ["release"] else []))
    by (destruct (release b); [reflexivity | apply app_nil_r]).
  destruct (tags b ++ (if release b then ["release"] else [])) as [|t tl];
    cbn [length Nat.ltb Nat.leb];
    destruct (isWeb goos), (goos =? "windows")%string, (release b),
             (target b =? "")%string, (goos =? "gopherjs")%string,
             (goPackage b =? "")%string; reflexivity.
Qed.

(** [build] invokes the toolchain for the version query, if at all, and
    then with [build_args]. *)
Lemma build_runs (w : World) (b : Builder) (r : command) (args : list string) :
  In (r, args) (runs (build w b).2) ->
  args = ["version"] \/ args = build_args b (build_goos w b).
Proof.
  unfold build. destruct (build_env w (build_goos w b)) as [e vc].
  unfold checkGoVersion, runOutput.
  destruct vc as [vc|].
  - destruct (run w _ ["version"]) as [out [err|]]; simpl.
    + intros [Heq|[]]. injection Heq as _ <-. left. reflexivity.
    + destruct (checkVersion w out vc); simpl.
      * intros [Heq|[]]. injection Heq as _ <-. left. reflexivity.
      * destruct (run w _ (build_args _ _)) as [out2 [err2|]]; simpl;
          (intros [Heq|[Heq|[]]]; injection Heq as _ <-; [left|right]; reflexivity).
  - simpl. destruct (run w _ (build_args _ _)) as [out2 [err2|]]; simpl;
      (intros [Heq|[]]; injection Heq as _ <-; right; reflexivity).
Qed.

(** When [build] reports no error it did run the build command. *)
Lemma build_ok_runs (w : World) (b : Builder) :
  (build w b).1.1 = None ->
  exists r, In (r, build_args b (build_goos w b)) (runs (build w b).2).
Proof.
  unfold build. destruct (build_env w (build_goos w b)) as [e vc].
  unfold checkGoVersion, runOutput.
  destruct vc as [vc|].
  - destruct (run w _ ["version"]) as [out [err|]]; simpl; [discriminate|].
    destruct (checkVersion w out vc); simpl; [discriminate|].
    destruct (run w _ (build_args _ _)) as [out2 [err2|]]; simpl; [discriminate|].
    intros _. eexists. right. left. reflexivity.
  - simpl. destruct (run w _ (build_args _ _)) as [out2 [err2|]]; simpl; [discriminate|].
    intros _. eexists. left. reflexivity.
Qed.

Lemma build_args_not_version (b : Builder) (goos : string) :
  build_args b goos <> ["version"].
Proof. rewrite build_args_parts. discriminate. Qed.

(** [build] assigns the runner and nothing else. *)
Lemma build_keeps_tags (w : World) (b : Builder) : tags (build w b).1.2 = tags b.
Proof.
  unfold build. destruct (build_env w (build_goos w b)) as [e vc].
  destruct (checkGoVersion w _ vc) as [[verr|] tr1]; [reflexivity|].
  unfold runOutput. destruct (run w _ _) as [out err2]. reflexivity.
Qed.

(** [Build] either stops at the source directory check, or is [build]
    on the builder with the parsed tags. *)
Lemma Build_cases (w : World) (b : Builder) :
  (exists err, Build w b = (Some err, b, [])) \/ Build w b = build w (parsed b).
Proof.
  unfold Build, parsed.
  destruct (negb (srcdir b =? "")%string); [|right; reflexivity].
  destruct (os_Stat w (srcdir b)) as [e|[|]]; simpl;
    [left; eexists; reflexivity | right; reflexivity | left; eexists; reflexivity].
Qed.

Lemma parsed_tag_list (b : Builder) :
  tags (parsed b) ++ (if release (parsed b) then ["release"] else []) = tag_list b.
Proof. unfold parsed, tag_list. destruct (tagsToParse b =? "")%string; reflexivity. Qed.

Lemma parsed_args (b : Builder) (goos : string) :
  build_args (parsed b) goos =
  args_around goos b
    (match tag_list b with [] => [] | tl => [tags_flag goos; Join tl ","] end).
Proof.
  rewrite build_args_parts, parsed_tag_list.
  unfold parsed. destruct (tagsToParse b =? "")%string; reflexivity.
Qed.

Lemma parsed_goos (w : World) (b : Builder) : build_goos w (parsed b) = build_goos w b.
Proof. unfold parsed. destruct (tagsToParse b =? "")%string; reflexivity. Qed.

Lemma Join_snoc (l : list string) (x sep : string) :
  l <> [] -> Join (l ++ [x]) sep = Join l sep +:+ sep +:+ x.
Proof.
  induction l as [|a [|b l] IH]; [contradiction|reflexivity|].
  intros _.
  change (Join ((a :: b :: l) ++ [x]) sep) with (a +:+ sep +:+ Join ((b :: l) ++ [x]) sep).
  rewrite IH by discriminate.
  change (Join (a :: b :: l) sep) with (a +:+ sep +:+ Join (b :: l) sep).
  rewrite !append_assoc. reflexivity.
Qed.

Lemma append_nil_r (a : string) : a +:+ "" = a.
Proof.
  induction a as [|x a IH]; [reflexivity|].
  change (String x (a +:+ "") = String x a). f_equal. exact IH.
Qed.

(** The text of the tags argument: the [--tags] flag as it was given,
    followed by ",release" in release mode. *)
Lemma tags_argument_text (b : Builder) :
  Join (Split (tagsToParse b) "," ++ (if release b then ["release"] else [])) "," =
  tagsToParse b +:+ (if release b then ",release" else "").
Proof.
  destruct (release b).
  - rewrite Join_snoc by apply Split_not_nil. rewrite Join_Split. reflexivity.
  - rewrite app_nil_r, Join_Split, append_nil_r. reflexivity.
Qed.

(** C5: when [tagsToParse] is not empty, [Build] splits it on commas into
    the tag list, and the build command receives, between the output
    arguments and the package, [-tags] ([--tags] for gopherjs) followed
    by those tags, and "release" in release mode, joined by commas.  A
    builder whose tag list is empty passes no tags argument.  When
    [Build] reports no error the build command was run. *)
Theorem Build_tags_argument (w : World) (b : Builder) :
  let goos := build_goos w b in
  (forall r args,
     In (r, args) (runs (Build w b).2) -> args <> ["version"] ->
     (tagsToParse b <> "" ->
      args = args_around goos b
               [tags_flag goos;
                Join (Split (tagsToParse b) "," ++ (if release b then ["release"] else []))
                     ","]) /\
     (tag_list b = [] -> args = args_around goos b [])) /\
  ((Build w b).1.1 = None ->
   (tagsToParse b <> "" -> tags (Build w b).1.2 = Split (tagsToParse b) ",") /\
   exists r args, In (r, args) (runs (Build w b).2) /\ args <> ["version"]).
Proof.
  intros goos. destruct (Build_cases w b) as [[err Hb]|Hb]; rewrite Hb.
  - split; [intros r args []|discriminate].
  - split.
    + intros r args Hin Hnv.
      destruct (build_runs _ _ _ _ Hin) as [->| ->]; [contradiction|].
      rewrite parsed_goos, parsed_args. fold goos. split.
      * intros Hne. apply String.eqb_neq in Hne. unfold tag_list. rewrite Hne.
        pose proof (Split_not_nil (tagsToParse b) ",") as Hs.
        destruct (Split (tagsToParse b) ","); [contradiction|reflexivity].
      * intros ->. reflexivity.
    + intros Hok. split.
      * intros Hne. apply String.eqb_neq in Hne.
        rewrite build_keeps_tags. unfold parsed. rewrite Hne. reflexivity.
      * destruct (build_ok_runs _ _ Hok) as [r Hr].
        exists r, (build_args (parsed b) (build_goos w (parsed b))).
        split; [assumption | apply build_args_not_version].
Qed.

Lemma Build_tags_argument_witness :
  tagsToParse example_builder <> "" /\
  Build example_world example_builder =
  (None,
   set_runner (set_tags example_builder ["debug"; "gles"])
     (Command "go" "/src" ["HOME=/root"; "CGO_ENABLED=1"; "GOOS=linux"]),
   [Run (Command "go" "/src" ["HOME=/root"; "CGO_ENABLED=1"; "GOOS=linux"])
        ["build"; "-ldflags"; "-s -w"; "-o"; "app"; "-tags"; "debug,gles,release"; "./cmd"]]) /\
  ["build"; "-ldflags"; "-s -w"; "-o"; "app"; "-tags"; "debug,gles,release"; "./cmd"] =
  args_around "linux" example_builder
    [tags_flag "linux";
     Join (Split (tagsToParse example_builder) ","
           ++ (if release example_builder then ["release"] else [])) ","].
Proof.
  split; [discriminate|]. split; [reflexivity|].
  destruct (Build_tags_argument example_world example_builder) as [H _].
  destruct (H (Command "go" "/src" ["HOME=/root"; "CGO_ENABLED=1"; "GOOS=linux"])
              ["build"; "-ldflags"; "-s -w"; "-o"; "app"; "-tags"; "debug,gles,release";
               "./cmd"]) as [H1 _].
  - left. reflexivity.
  - discriminate.
  - apply H1. discriminate.
Defined.

Lemma build_env_constraint (w : World) (goos : string) :
  (goos <> "wasm" -> (build_env w goos).2 = None) /\
  (goos = "wasm" ->
   (build_env w goos).2 = Some (version_NewConstrainGroupFromString w ">=1.17")).
Proof.
  split.
  - intros Hne. apply String.eqb_neq in Hne. unfold build_env, isWeb. rewrite Hne.
    destruct (goos =? "ios")%string, (goos =? "android")%string,
             (goos =? "gopherjs")%string; reflexivity.
  - intros ->. reflexivity.
Qed.

Lemma build_env_added (w : World) (goos : string) :
  (build_env w goos).1 = os_Environ w ++ added_env goos.
Proof.
  unfold build_env, added_env, isWeb.
  destruct (goos =? "gopherjs")%string eqn:Eg.
  { apply String.eqb_eq in Eg. subst goos. simpl. symmetry. apply app_nil_r. }
  destruct (goos =? "wasm")%string eqn:Ew.
  { apply String.eqb_eq in Ew. subst goos. simpl. rewrite <- app_assoc. reflexivity. }
  destruct (goos =? "ios")%string eqn:Ei.
  { apply String.eqb_eq in Ei. subst goos. reflexivity. }
  destruct (goos =? "android")%string eqn:Ea.
  { apply String.eqb_eq in Ea. subst goos. reflexivity. }
  destruct (goos =? "darwin")%string eqn:Ed.
  { apply String.eqb_eq in Ed. subst goos. simpl. rewrite <- !app_assoc. reflexivity. }
  simpl. rewrite <- app_assoc. reflexivity.
Qed.

(** [build] without a version constraint. *)
Lemma build_unconstrained (w : World) (b : Builder) :
  (build_env w (build_goos w b)).2 = None ->
  build w b =
  ((run w (configured_runner w b) (build_args b (build_goos w b))).2,
   set_runner b (configured_runner w b),
   Run (configured_runner w b) (build_args b (build_goos w b))
   :: match (run w (configured_runner w b) (build_args b (build_goos w b))).2 with
      | Some _ => [Stderr (run w (configured_runner w b) (build_args b (build_goos w b))).1]
      | None => []
      end).
Proof.
  unfold build, configured_runner, build_runner.
  destruct (build_env w (build_goos w b)) as [e vc]. simpl. intros ->.
  simpl. unfold runOutput. destruct (run w _ _) as [out err]. reflexivity.
Qed.

(** [build] with a version constraint. *)
Lemma build_constrained (w : World) (b : Builder) (vc : ConstraintGroup) :
  (build_env w (build_goos w b)).2 = Some vc ->
  build w b =
  match run w (build_runner w b) ["version"] with
  | (out, Some e) =>
      (Some e, set_runner b (build_runner w b),
       [Run (build_runner w b) ["version"]; Stderr out])
  | (out, None) =>
      match checkVersion w out vc with
      | Some e => (Some e, set_runner b (build_runner w b), [Run (build_runner w b) ["version"]])
      | None =>
          ((run w (configured_runner w b) (build_args b (build_goos w b))).2,
           set_runner b (configured_runner w b),
           Run (build_runner w b) ["version"]
           :: Run (configured_runner w b) (build_args b (build_goos w b))
           :: match (run w (configured_runner w b) (build_args b (build_goos w b))).2 with
              | Some _ =>
                  [Stderr (run w (configured_runner w b) (build_args b (build_goos w b))).1]
              | None => []
              end)
      end
  end.
Proof.
  unfold build, configured_runner, build_runner.
  destruct (build_env w (build_goos w b)) as [e vc']. simpl. intros [= ->].
  unfold checkGoVersion, runOutput.
  destruct (run w _ ["version"]) as [out [e1|]]; [reflexivity|].
  destruct (checkVersion w out vc) as [e2|]; [reflexivity|].
  destruct (run w _ (build_args _ _)) as [out2 err2]. reflexivity.
Qed.

(** C6: [build] works with one target operating system: the
    [--target]/[--os] flag when it is not empty, otherwise the value of
    [GOOS] when the environment sets it, otherwise [runtime.GOOS].  That
    value decides what [build] does: the tool it runs when the builder
    brings no runner ([gopherjs] for the target gopherjs, [go] for every
    other), the environment and the arguments of the build command, and
    whether the toolchain is first asked for its version (for wasm only).
    For every target but wasm [build] runs exactly the build command so
    determined and returns its error; for wasm it runs the version query
    and then, unless that stops it, the build command. *)
Theorem build_uses_resolved_goos (w : World) (b : Builder) :
  exists goos : string,
    ((os b <> "" -> goos = os b) /\
     (os b = "" -> forall v, os_LookupEnv w "GOOS" = Some v -> goos = v) /\
     (os b = "" -> os_LookupEnv w "GOOS" = None -> goos = runtime_GOOS w)) /\
    let r0 := match runner b with
              | Some r0 => r0
              | None => newCommand (if (goos =? "gopherjs")%string then "gopherjs" else "go")
              end in
    let r := setEnv (setDir r0 (srcdir b)) (os_Environ w ++ added_env goos) in
    let args := args_around goos b
                  match tags b ++ (if release b then ["release"] else []) with
                  | [] => []
                  | tl => [tags_flag goos; Join tl ","]
                  end in
    (goos <> "wasm" ->
     runs (build w b).2 = [(r, args)] /\ (build w b).1.1 = (run w r args).2) /\
    (goos = "wasm" ->
     runs (build w b).2 = [(r0, ["version"])] \/
     runs (build w b).2 = [(r0, ["version"]); (r, args)]).
Proof.
  exists (build_goos w b). split.
  - unfold build_goos, targetOS. split; [|split].
    + intros Hne. apply String.eqb_neq in Hne. rewrite Hne. reflexivity.
    + intros -> v ->. reflexivity.
    + intros -> ->. reflexivity.
  - set (goos := build_goos w b). intros r0 r args.
    assert (Hr0 : build_runner w b = r0).
    { unfold build_runner, r0. fold goos. destruct (runner b); [reflexivity|].
      destruct (goos =? "gopherjs")%string; reflexivity. }
    assert (Hr : configured_runner w b = r).
    { unfold configured_runner. fold goos. rewrite Hr0, build_env_added. reflexivity. }
    assert (Ha : build_args b goos = args) by apply build_args_parts.
    split.
    + intros Hne.
      rewrite (build_unconstrained w b (proj1 (build_env_constraint w _) Hne)).
      fold goos. rewrite Hr, Ha. split; [|reflexivity].
      simpl. destruct (run w r args).2; reflexivity.
    + intros Hw. pose proof (proj2 (build_env_constraint w _) Hw) as Hc.
      rewrite (build_constrained w b _ Hc). fold goos. rewrite Hr0, Hr, Ha.
      destruct (run w r0 ["version"]) as [out [e1|]]; [left; reflexivity|].
      destruct (checkVersion w out _) as [e2|]; [left; reflexivity|].
      right. simpl. destruct (run w r args).2; reflexivity.
Qed.

Lemma build_uses_resolved_goos_witness :
  runs (build example_world (set_os example_builder "windows")).2 =
    [(Command "go" "/src" ["HOME=/root"; "CGO_ENABLED=1"; "GOOS=windows"],
      ["build"; "-ldflags"; "-s -w -H=windowsgui"; "-o"; "app"; "-tags"; "release"; "./cmd"])] /\
  runs (build goos_world example_builder).2 =
    [(Command "go" "/src"
        ["HOME=/root"; "GOOS=darwin"; "CGO_CFLAGS=-mmacosx-version-min=10.11";
         "CGO_LDFLAGS=-mmacosx-version-min=10.11"; "CGO_ENABLED=1"; "GOOS=darwin"],
      ["build"; "-ldflags"; "-s -w"; "-o"; "app"; "-tags"; "release"; "./cmd"])] /\
  runs (build example_world example_builder).2 =
    [(Command "go" "/src" ["HOME=/root"; "CGO_ENABLED=1"; "GOOS=linux"],
      ["build"; "-ldflags"; "-s -w"; "-o"; "app"; "-tags"; "release"; "./cmd"])].
Proof.
  destruct (build_uses_resolved_goos example_world (set_os example_builder "windows"))
    as (g1 & (H1 & _ & _) & Hr1 & _).
  destruct (build_uses_resolved_goos goos_world example_builder)
    as (g2 & (_ & H2 & _) & Hr2 & _).
  destruct (build_uses_resolved_goos example_world example_builder)
    as (g3 & (_ & _ & H3) & Hr3 & _).
  assert (E1 : g1 = "windows") by (apply H1; discriminate).
  assert (E2 : g2 = "darwin") by (apply (H2 eq_refl "darwin"); reflexivity).
  assert (E3 : g3 = "linux") by (apply H3; reflexivity).
  subst g1 g2 g3.
  split; [apply Hr1; discriminate|].
  split; [apply Hr2; discriminate | apply Hr3; discriminate].
Defined.

(** C7: when [srcdir] is not empty and [os.Stat] fails on it or reports
    something that is not a directory, [Build] returns an error (that of
    [os.Stat], or its own), leaves the builder untouched and has no
    effect: the toolchain runner is not invoked. *)
Theorem Build_rejects_bad_srcdir (w : World) (b : Builder) :
  srcdir b <> "" ->
  os_Stat w (srcdir b) <> StatOk true ->
  Build w b =
  (Some match os_Stat w (srcdir b) with
        | StatErr err => err
        | StatOk _ => Errorf "specified source directory is not a valid directory"
        end, b, []) /\
  runs (Build w b).2 = [].
Proof.
  intros Hne Hst. apply String.eqb_neq in Hne.
  assert (Hb : Build w b =
    (Some match os_Stat w (srcdir b) with
          | StatErr err => err
          | StatOk _ => Errorf "specified source directory is not a valid directory"
          end, b, [])).
  { unfold Build. rewrite Hne. simpl.
    destruct (os_Stat w (srcdir b)) as [e|[|]]; [reflexivity|contradiction|reflexivity]. }
  split; [exact Hb | rewrite Hb; reflexivity].
Qed.

Lemma Build_rejects_bad_srcdir_witness :
  Build example_world (set_srcdir example_builder "/etc/passwd") =
  (Some (Errorf "specified source directory is not a valid directory"),
   set_srcdir example_builder "/etc/passwd", []) /\
  Build example_world (set_srcdir example_builder "/nowhere") =
  (Some (ExternalError "no such file or directory"),
   set_srcdir example_builder "/nowhere", []).
Proof.
  split.
  - apply (Build_rejects_bad_srcdir example_world (set_srcdir example_builder "/etc/passwd"));
      discriminate.
  - apply (Build_rejects_bad_srcdir example_world (set_srcdir example_builder "/nowhere"));
      discriminate.
Defined.

(** *** Further properties of [build], [Build] and the command action *)

(** Every invocation of [build] other than the version query is the
    build command on the configured runner. *)
Lemma build_invocation (w : World) (b : Builder) (r : command) (args : list string) :
  In (r, args) (runs (build w b).2) -> args <> ["version"] ->
  r = configured_runner w b /\ args = build_args b (build_goos w b).
Proof.
  destruct ((build_env w (build_goos w b)).2) as [vc|] eqn:E.
  - rewrite (build_constrained w b vc E).
    destruct (run w (build_runner w b) ["version"]) as [out [e1|]].
    + simpl. intros [[= <- <-]|[]] Hn. contradiction.
    + destruct (checkVersion w out vc) as [e2|].
      * simpl. intros [[= <- <-]|[]] Hn. contradiction.
      * destruct (run w (configured_runner w b) _) as [out2 [e3|]]; simpl;
          (intros [[= <- <-]|[[= <- <-]|[]]] Hn; [contradiction|split; reflexivity]).
  - rewrite (build_unconstrained w b E).
    destruct (run w (configured_runner w b) _) as [out2 [e3|]]; simpl;
      (intros [[= <- <-]|[]] _; split; reflexivity).
Qed.

(** X6: the command takes at most one positional argument.  With two or
    more, [Action] fails with "incorrect amount of path provided" before
    anything is checked or run; with exactly one, that argument is the
    package: it is what [Build] is run with, and when it is not empty it is
    the last argument of the build command. *)
Theorem Action_positional_arguments (w : World) (b : Builder) :
  (forall args, (2 <= length args)%nat ->
     Action w b args = (Some (Errorf "incorrect amount of path provided"), b, [])) /\
  (forall p r args,
     In (r, args) (runs (Action w b [p]).2) -> args <> ["version"] -> p <> "" ->
     List.last args "" = p) /\
  Action w b [] = Build w b.
Proof.
  split; [|split; [|reflexivity]].
  - intros [|a [|a' args]] Hl; simpl in Hl; try lia. reflexivity.
  - intros p r args Hin Hnv Hp.
    change (Action w b [p]) with (Build w (set_goPackage b p)) in Hin.
    destruct (Build_cases w (set_goPackage b p)) as [[err Hb]|Hb];
      rewrite Hb in Hin; [destruct Hin|].
    destruct (build_invocation _ _ _ _ Hin Hnv) as [_ ->].
    rewrite parsed_args. unfold args_around, package_part.
    change (goPackage (set_goPackage b p)) with p.
    apply String.eqb_neq in Hp. rewrite Hp.
    rewrite !app_assoc. apply List.last_last.
Qed.

Lemma Action_positional_arguments_witness :
  Action example_world example_builder ["./a"; "./b"] =
    (Some (Errorf "incorrect amount of path provided"), example_builder, []) /\
  List.last ["build"; "-ldflags"; "-s -w"; "-o"; "app"; "-tags"; "debug,gles,release"; "./a"] ""
  = "./a".
Proof.
  destruct (Action_positional_arguments example_world example_builder) as (H2 & H1 & _).
  split.
  - apply H2. simpl. lia.
  - apply (H1 "./a" (Command "go" "/src" ["HOME=/root"; "CGO_ENABLED=1"; "GOOS=linux"])).
    + left. reflexivity.
    + discriminate.
    + discriminate.
Defined.

(** X7: for every target other than wasm, [build] never asks for the
    toolchain version: it invokes the toolchain exactly once, with the
    build arguments, returns the error of that invocation as it is, and
    writes the toolchain's output to standard error exactly when the
    invocation failed. *)
Theorem build_runs_once (w : World) (b : Builder) :
  build_goos w b <> "wasm" ->
  let r := configured_runner w b in
  let args := build_args b (build_goos w b) in
  (build w b).1.1 = (run w r args).2 /\
  (build w b).2 =
    Run r args :: match (run w r args).2 with
                  | Some _ => [Stderr (run w r args).1]
                  | None => []
                  end /\
  runs (build w b).2 = [(r, args)].
Proof.
  intros Hne r args.
  rewrite (build_unconstrained w b (proj1 (build_env_constraint w _) Hne)).
  fold r args. split; [reflexivity|]. split; [reflexivity|].
  simpl. destruct (run w r args).2; reflexivity.
Qed.

Lemma build_runs_once_witness :
  runs (build example_world example_builder).2 =
  [(configured_runner example_world example_builder,
    build_args example_builder (build_goos example_world example_builder))].
Proof.
  apply (build_runs_once example_world example_builder). discriminate.
Defined.

(** X8: a wasm build is gated by the toolchain version.  [build] first
    runs [version] on the runner as it stands, before the source directory
    and the environment are set on it; when that invocation fails, or when
    [checkVersion] rejects its output against the constraint ">=1.17",
    [build] returns that error and the build command is not run;
    otherwise the build command follows. *)
Theorem wasm_build_is_gated (w : World) (b : Builder) :
  build_goos w b = "wasm" ->
  let r0 := build_runner w b in
  let gate :=
    match (run w r0 ["version"]).2 with
    | Some e => Some e
    | None => checkVersion w (run w r0 ["version"]).1
                (version_NewConstrainGroupFromString w ">=1.17")
    end in
  (forall e, gate = Some e ->
     (build w b).1.1 = Some e /\ runs (build w b).2 = [(r0, ["version"])]) /\
  (gate = None ->
     runs (build w b).2 =
     [(r0, ["version"]); (configured_runner w b, build_args b "wasm")]).
Proof.
  intros Hg r0 gate.
  pose proof (proj2 (build_env_constraint w _) Hg) as Hc.
  rewrite (build_constrained w b _ Hc). unfold gate. fold r0. rewrite Hg.
  destruct (run w r0 ["version"]) as [out [e1|]]; simpl.
  - split; [intros e [= <-]; split; reflexivity | discriminate].
  - destruct (checkVersion w out _) as [e2|].
    + split; [intros e [= <-]; split; reflexivity | discriminate].
    + split; [discriminate|]. intros _.
      destruct (run w (configured_runner w b) _).2; reflexivity.
Qed.

Lemma wasm_build_is_gated_witness :
  (build old_go_world wasm_builder).1.1 =
    Some (Errorf "expected go version >=1.17 got `1.16`") /\
  runs (build old_go_world wasm_builder).2 = [(newCommand "go", ["version"])] /\
  runs (build example_world wasm_builder).2 =
    [(newCommand "go", ["version"]);
     (configured_runner example_world wasm_builder, build_args wasm_builder "wasm")].
Proof.
  destruct (wasm_build_is_gated old_go_world wasm_builder eq_refl) as [H1 _].
  destruct (wasm_build_is_gated example_world wasm_builder eq_refl) as [_ H2].
  destruct (H1 (Errorf "expected go version >=1.17 got `1.16`") eq_refl) as [Ha Hb].
  split; [exact Ha|]. split; [exact Hb|]. apply H2. reflexivity.
Defined.

(** X9: the build command runs in the inherited environment
    [os.Environ()] followed by: nothing for gopherjs; [GOARCH=wasm] and
    [GOOS=js] for wasm; [CGO_ENABLED=1] for ios and android; for every other
    target [CGO_ENABLED=1] and [GOOS=<target>], preceded on darwin by the
    two [-mmacosx-version-min=10.11] cgo flags. *)
Theorem build_environment (w : World) (b : Builder) (r : command) (args : list string) :
  In (r, args) (runs (build w b).2) -> args <> ["version"] ->
  env r = os_Environ w ++ added_env (build_goos w b).
Proof.
  intros Hin Hnv. destruct (build_invocation _ _ _ _ Hin Hnv) as [-> _].
  unfold configured_runner. simpl. apply build_env_added.
Qed.

Lemma build_environment_witness :
  env (configured_runner example_world example_builder) =
  ["HOME=/root"; "CGO_ENABLED=1"; "GOOS=linux"].
Proof.
  apply (build_environment example_world example_builder
           (configured_runner example_world example_builder)
           (build_args example_builder (build_goos example_world example_builder))).
  - left. reflexivity.
  - discriminate.
Defined.

(** X10: the build command runs in the source directory, on the runner
    the builder was given, if any, and otherwise with the tool [gopherjs]
    when the target is gopherjs and [go] for every other target; and
    [build] always leaves a runner for the same tool on the builder. *)
Theorem build_runner_choice (w : World) (b : Builder) :
  let tool :=
    match runner b with
    | Some r0 => exe r0
    | None => if (build_goos w b =? "gopherjs")%string then "gopherjs" else "go"
    end in
  (forall r args, In (r, args) (runs (build w b).2) -> exe r = tool) /\
  (forall r args, In (r, args) (runs (build w b).2) -> args <> ["version"] ->
     dir r = srcdir b) /\
  exists r', runner (build w b).1.2 = Some r' /\ exe r' = tool.
Proof.
  intros tool.
  assert (Ht : exe (build_runner w b) = tool).
  { unfold build_runner, tool. destruct (runner b); [reflexivity|].
    destruct (build_goos w b =? "gopherjs")%string; reflexivity. }
  assert (Hc : exe (configured_runner w b) = tool) by exact Ht.
  split; [|split].
  - intros r args Hin. destruct (decide (args = ["version"])) as [->|Hnv].
    + revert Hin. destruct ((build_env w (build_goos w b)).2) as [vc|] eqn:E.
      * rewrite (build_constrained w b vc E).
        destruct (run w (build_runner w b) ["version"]) as [out [e1|]].
        { simpl. intros [[= <-]|[]]. exact Ht. }
        destruct (checkVersion w out vc) as [e2|].
        { simpl. intros [[= <-]|[]]. exact Ht. }
        destruct (run w (configured_runner w b) _) as [out2 [e3|]]; simpl;
          (intros [[= <-]|[[= <- _]|[]]]; assumption).
      * rewrite (build_unconstrained w b E).
        destruct (run w (configured_runner w b) _) as [out2 [e3|]]; simpl;
          (intros [[= <- _]|[]]; assumption).
    + destruct (build_invocation _ _ _ _ Hin Hnv) as [-> _]. exact Hc.
  - intros r args Hin Hnv. destruct (build_invocation _ _ _ _ Hin Hnv) as [-> _].
    reflexivity.
  - destruct ((build_env w (build_goos w b)).2) as [vc|] eqn:E.
    + rewrite (build_constrained w b vc E).
      destruct (run w (build_runner w b) ["version"]) as [out [e1|]];
        [eexists; split; [reflexivity|exact Ht]|].
      destruct (checkVersion w out vc) as [e2|];
        eexists; (split; [reflexivity|assumption]).
    + rewrite (build_unconstrained w b E). eexists. split; [reflexivity|exact Hc].
Qed.

Lemma build_runner_choice_witness :
  dir (configured_runner example_world example_builder) = "/src".
Proof.
  destruct (build_runner_choice example_world example_builder) as (_ & Hd & _).
  apply (Hd (configured_runner example_world example_builder)
            (build_args example_builder (build_goos example_world example_builder))).
  - left. reflexivity.
  - discriminate.
Defined.

(** X11: splitting the [--tags] flag on commas and joining the tags with
    commas again gives the flag back, so that the tags argument of the
    build command is the flag as the user wrote it, followed by ",release"
    in release mode. *)
Theorem Build_passes_tags_verbatim (w : World) (b : Builder) (r : command) (args : list string) :
  tagsToParse b <> "" ->
  In (r, args) (runs (Build w b).2) -> args <> ["version"] ->
  args = args_around (build_goos w b) b
           [tags_flag (build_goos w b);
            tagsToParse b +:+ (if release b then ",release" else "")].
Proof.
  intros Hne Hin Hnv.
  destruct (Build_cases w b) as [[err Hb]|Hb]; rewrite Hb in Hin; [destruct Hin|].
  destruct (build_invocation _ _ _ _ Hin Hnv) as [_ ->].
  rewrite parsed_goos, parsed_args, <- tags_argument_text.
  apply String.eqb_neq in Hne. unfold tag_list. rewrite Hne.
  pose proof (Split_not_nil (tagsToParse b) ",") as Hs.
  destruct (Split (tagsToParse b) ","); [contradiction|reflexivity].
Qed.

Lemma Build_passes_tags_verbatim_witness :
  ["build"; "-ldflags"; "-s -w"; "-o"; "app"; "-tags"; "debug,gles,release"; "./cmd"] =
  args_around "linux" example_builder ["-tags"; "debug,gles" +:+ ",release"].
Proof.
  apply (Build_passes_tags_verbatim example_world example_builder
           (Command "go" "/src" ["HOME=/root"; "CGO_ENABLED=1"; "GOOS=linux"])).
  - discriminate.
  - left. reflexivity.
  - discriminate.
Defined.

End commands_spec.

(** ** Package [test]: the configurable theme *)

Module test_spec.
Import test.

Section ThemeSpec.
Context {TextStyle : Type} `{Countable TextStyle}.
Context {color : Type} {resource : Type}.
Context (show_style : TextStyle -> string).

Lemma index_absent {K V : Type} `{Countable K} (zero : V) (m : gmap K V) (k : K) :
  m !! k = None -> index zero m k = zero.
Proof. unfold index. intros ->. reflexivity. Qed.

(** C9: for a colour name, text style or size name that is absent from
    the maps of a [configurableTheme], [Color], [Font] and [Size] log one
    error and return the zero value: a nil colour, a nil font resource,
    the size 0. *)
Theorem undefined_entries_are_zero
    (t : @configurableTheme TextStyle _ _ color resource) (log : list string) :
  (forall n v, colors t !! n = None ->
     Color t n v log =
     (None, log ++ ["color " +:+ n +:+ " not defined in theme " +:+ name t])) /\
  (forall style, fonts t !! style = None ->
     Font show_style t style log =
     (None, log ++ ["font for style " +:+ show_style style
                    +:+ " not defined in theme " +:+ name t])) /\
  (forall s, sizes t !! s = None ->
     Size t s log =
     (float32_zero, log ++ ["size " +:+ s +:+ " not defined in theme " +:+ name t])).
Proof.
  split; [|split].
  - intros n v Hn. unfold Color. rewrite (index_absent _ _ _ Hn). reflexivity.
  - intros style Hs. unfold Font. rewrite (index_absent _ _ _ Hs). reflexivity.
  - intros s Hs. unfold Size. rewrite (index_absent _ _ _ Hs). reflexivity.
Qed.

End ThemeSpec.

Lemma undefined_entries_are_zero_witness :
  Color example_theme "foreground" 0%N [] =
    (None, ["color foreground not defined in theme Ugly Test Theme"]) /\
  Font (fun s => s) example_theme "italic" [] =
    (None, ["font for style italic not defined in theme Ugly Test Theme"]) /\
  Size example_theme "text" [] =
    (float32_zero, ["size text not defined in theme Ugly Test Theme"]).
Proof.
  destruct (undefined_entries_are_zero (fun s => s) example_theme []) as (Hc & Hf & Hs).
  split; [|split].
  - apply (Hc "foreground" 0%N). reflexivity.
  - apply (Hf "italic"). reflexivity.
  - apply (Hs "text"). reflexivity.
Defined.

(** *** Further properties of the accessors *)

Section AccessorEdges.
Context {TextStyle : Type} `{Countable TextStyle}.
Context {color : Type} {resource : Type}.
Context (show_style : TextStyle -> string).

Lemma index_present {K V : Type} `{Countable K} (zero x : V) (m : gmap K V) (k : K) :
  m !! k = Some x -> index zero m k = x.
Proof. unfold index. intros ->. reflexivity. Qed.

(** X12: the accessors cannot tell a stored zero value from a missing
    entry.  An entry stored with a non-nil colour, a non-nil font or a size
    that is not zero is returned and nothing is logged; a colour or font
    stored as nil and a size stored as +0 or -0 are returned as they are,
    and logged as "not defined" although the key is present. *)
Theorem stored_zero_values_are_logged
    (t : @configurableTheme TextStyle _ _ color resource) (log : list string) :
  (forall n v c, colors t !! n = Some (Some c) -> Color t n v log = (Some c, log)) /\
  (forall style r, fonts t !! style = Some (Some r) ->
     Font show_style t style log = (Some r, log)) /\
  (forall s x, sizes t !! s = Some x -> SFeqb x float32_zero = false ->
     Size t s log = (x, log)) /\
  (forall n v, colors t !! n = Some None ->
     Color t n v log =
     (None, log ++ ["color " +:+ n +:+ " not defined in theme " +:+ name t])) /\
  (forall style, fonts t !! style = Some None ->
     Font show_style t style log =
     (None, log ++ ["font for style " +:+ show_style style
                    +:+ " not defined in theme " +:+ name t])) /\
  (forall s sign, sizes t !! s = Some (S754_zero sign) ->
     Size t s log =
     (S754_zero sign, log ++ ["size " +:+ s +:+ " not defined in theme " +:+ name t])).
Proof.
  repeat split.
  - intros n v c Hn. unfold Color. rewrite (index_present _ _ _ _ Hn). reflexivity.
  - intros style r Hs. unfold Font. rewrite (index_present _ _ _ _ Hs). reflexivity.
  - intros s x Hs Hx. unfold Size. rewrite (index_present _ _ _ _ Hs), Hx. reflexivity.
  - intros n v Hn. unfold Color. rewrite (index_present _ _ _ _ Hn). reflexivity.
  - intros style Hs. unfold Font. rewrite (index_present _ _ _ _ Hs). reflexivity.
  - intros s sign Hs. unfold Size. rewrite (index_present _ _ _ _ Hs).
    destruct sign; reflexivity.
Qed.

End AccessorEdges.

Lemma stored_zero_values_are_logged_witness :
  Color example_theme "background" 0%N [] = (Some 1%nat, []) /\
  Size example_theme "padding" [] = (shaders.b32 10 0, []) /\
  Size zero_theme "padding" [] =
    (S754_zero true, ["size padding not defined in theme Zero"]).
Proof.
  destruct (stored_zero_values_are_logged (fun s => s) example_theme []) as (Hc & _ & Hs & _).
  destruct (stored_zero_values_are_logged (fun s => s) zero_theme [])
    as (_ & _ & _ & _ & _ & Hz).
  split; [|split].
  - apply (Hc "background" 0%N 1%nat). reflexivity.
  - apply (Hs "padding"); reflexivity.
  - apply (Hz "padding" true). reflexivity.
Defined.

(** *** The two test themes *)

Lemma list_to_map_lookup_all {K V : Type} `{Countable K} (P : V -> Prop)
    (l : list (K * V)) (k : K) :
  In k (map fst l) -> Forall (fun kv => P kv.2) l ->
  exists v, (list_to_map l : gmap K V) !! k = Some v /\ P v.
Proof.
  induction l as [|[k' v'] l IH]; simpl; [intros []|].
  intros Hk Hall. apply Forall_cons in Hall as [Hv Hall].
  destruct (decide (k' = k)) as [->|Hne].
  - exists v'. split; [apply lookup_insert_eq | exact Hv].
  - rewrite lookup_insert_ne by assumption.
    destruct Hk as [Hk|Hk]; [contradiction|]. apply IH; assumption.
Qed.

Section TestThemesSpec.
Context {TextStyle : Type} `{Countable TextStyle} {resource : Type}.
Context (color_name : ColorName -> ThemeColorName).
Context (size_name : SizeName -> ThemeSizeName).
Context (style : bool -> bool -> bool -> bool -> TextStyle).
Context (DefaultTextFont DefaultTextBoldFont DefaultTextItalicFont
         DefaultTextBoldItalicFont DefaultTextMonospaceFont DefaultSymbolFont
         : iface resource).

Abbreviation new_theme_ :=
  (NewTheme color_name size_name style DefaultTextFont DefaultTextBoldFont
     DefaultTextItalicFont DefaultTextBoldItalicFont DefaultTextMonospaceFont
     DefaultSymbolFont).
Abbreviation default_theme_ :=
  (default_test_theme color_name size_name style DefaultTextFont DefaultTextBoldFont
     DefaultTextItalicFont DefaultTextBoldItalicFont DefaultTextMonospaceFont
     DefaultSymbolFont).
Abbreviation Theme_ :=
  (Theme color_name size_name style DefaultTextFont DefaultTextBoldFont
     DefaultTextItalicFont DefaultTextBoldItalicFont DefaultTextMonospaceFont
     DefaultSymbolFont).

Lemma Color_of_table (l : list (ThemeColorName * iface color_value))
    (t : @configurableTheme TextStyle _ _ color_value resource)
    (n : ThemeColorName) (v : ThemeVariant) (log : list string) :
  colors t = list_to_map l ->
  In n (map fst l) -> Forall (fun kv => kv.2 <> None) l ->
  exists c, Color t n v log = (Some c, log).
Proof.
  intros Ht Hn Hall.
  destruct (list_to_map_lookup_all (fun x => x <> None) l n Hn Hall) as (x & Hx & Hnn).
  destruct x as [c|]; [|contradiction].
  assert (Hl : colors t !! n = Some (Some c)) by (rewrite Ht; exact Hx).
  exists c. unfold Color. rewrite (index_present _ _ _ _ Hl). reflexivity.
Qed.

Lemma Size_of_table (l : list (ThemeSizeName * float32))
    (t : @configurableTheme TextStyle _ _ color_value resource)
    (s : ThemeSizeName) (log : list string) :
  sizes t = list_to_map l ->
  In s (map fst l) -> Forall (fun kv => SFeqb kv.2 float32_zero = false) l ->
  exists x, Size t s log = (x, log) /\ SFeqb x float32_zero = false.
Proof.
  intros Ht Hs Hall.
  destruct (list_to_map_lookup_all (fun x => SFeqb x float32_zero = false) l s Hs Hall)
    as (x & Hx & Hnz).
  assert (Hl : sizes t !! s = Some x) by (rewrite Ht; exact Hx).
  exists x. split; [|assumption].
  unfold Size. rewrite (index_present _ _ _ _ Hl), Hnz. reflexivity.
Qed.

Lemma NewTheme_color_keys :
  map fst (NewTheme_colors color_name) = map color_name knownColorNames.
Proof. reflexivity. Qed.

Lemma Theme_color_keys :
  map fst (Theme_colors color_name) = map color_name knownColorNames.
Proof. reflexivity. Qed.

Lemma Theme_size_keys :
  map fst (Theme_sizes size_name) = map fst (NewTheme_sizes size_name).
Proof. reflexivity. Qed.

Lemma NewTheme_size_keys (s : SizeName) :
  In (size_name s) (map fst (NewTheme_sizes size_name)).
Proof. destruct s; simpl; repeat (first [left; reflexivity | right]). Qed.

(** X13: both test themes define, with a colour that is not nil, every
    colour name listed in [knownColorNames]: [Color] returns a colour for
    each of them and logs nothing, in the theme of [NewTheme] and in the
    theme [Theme] builds. *)
Theorem test_themes_define_known_colours (v : ThemeVariant) (log : list string) :
  Forall (fun c =>
            (exists col, Color new_theme_ (color_name c) v log = (Some col, log)) /\
            (exists col, Color (Theme_ None).1 (color_name c) v log = (Some col, log)))
         knownColorNames.
Proof.
  apply Forall_forall. intros c Hc. apply list_elem_of_In in Hc. split.
  - apply (Color_of_table (NewTheme_colors color_name)); [reflexivity| |].
    + rewrite NewTheme_color_keys. apply in_map. exact Hc.
    + unfold NewTheme_colors. repeat (constructor; [discriminate|]). constructor.
  - apply (Color_of_table (Theme_colors color_name)); [reflexivity| |].
    + rewrite Theme_color_keys. apply in_map. exact Hc.
    + unfold Theme_colors. repeat (constructor; [discriminate|]). constructor.
Qed.

(** X14: both test themes define every size name with a size that is not
    zero, so that [Size] returns it and logs nothing. *)
Theorem test_themes_define_sizes (s : SizeName) (log : list string) :
  (exists x, Size new_theme_ (size_name s) log = (x, log) /\ SFeqb x float32_zero = false) /\
  (exists x, Size (Theme_ None).1 (size_name s) log = (x, log)
             /\ SFeqb x float32_zero = false).
Proof.
  split.
  - apply (Size_of_table (NewTheme_sizes size_name)); [reflexivity| |].
    + apply NewTheme_size_keys.
    + unfold NewTheme_sizes. repeat (constructor; [vm_compute; reflexivity|]). constructor.
  - apply (Size_of_table (Theme_sizes size_name)); [reflexivity| |].
    + rewrite Theme_size_keys. apply NewTheme_size_keys.
    + unfold Theme_sizes. repeat (constructor; [vm_compute; reflexivity|]). constructor.
Qed.

(** X15: the two test themes define the same colour names, the same text
    styles and the same size names. *)
Theorem test_themes_define_the_same_keys :
  let new_theme :=
    NewTheme color_name size_name style DefaultTextFont DefaultTextBoldFont
              DefaultTextItalicFont DefaultTextBoldItalicFont DefaultTextMonospaceFont
              DefaultSymbolFont in
  let default_theme :=
    default_test_theme color_name size_name style DefaultTextFont DefaultTextBoldFont
              DefaultTextItalicFont DefaultTextBoldItalicFont DefaultTextMonospaceFont
              DefaultSymbolFont in
  dom (colors new_theme) = dom (colors default_theme) /\
  dom (fonts new_theme) = dom (fonts default_theme) /\
  dom (sizes new_theme) = dom (sizes default_theme).
Proof.
  intros new_theme default_theme. unfold new_theme, default_theme, NewTheme, default_test_theme.
  cbn [colors fonts sizes]. rewrite !dom_list_to_map_L.
  split; [|split]; f_equal.
Qed.

(** X16: [Theme] builds the default test theme on the first call only:
    it stores the theme it returns, and every later call returns the stored
    theme and leaves it in place. *)
Theorem Theme_is_built_once
    (defaultTheme : option (@configurableTheme TextStyle _ _ color_value resource)) :
  (Theme_ defaultTheme).2 = Some (Theme_ defaultTheme).1 /\
  Theme_ (Theme_ defaultTheme).2 = Theme_ defaultTheme /\
  (forall t, defaultTheme = Some t -> (Theme_ defaultTheme).1 = t) /\
  (defaultTheme = None -> (Theme_ defaultTheme).1 = default_theme_).
Proof.
  destruct defaultTheme as [t|]; cbn [Theme fst snd].
  - split; [reflexivity|]. split; [reflexivity|].
    split; [intros t' [= ->]; reflexivity | discriminate].
  - split; [reflexivity|]. split; [reflexivity|].
    split; [discriminate | reflexivity].
Qed.

End TestThemesSpec.

Lemma Theme_is_built_once_witness :
  (example_Theme (Some example_NewTheme)).1 = example_NewTheme /\
  name (example_Theme None).1 = "Default Test Theme".
Proof.
  destruct (Theme_is_built_once (fun _ => "color") (fun _ => "size")
              (fun _ _ _ _ => "style") None None None None None None
              (Some example_NewTheme)) as (_ & _ & H3 & _).
  split; [apply H3; reflexivity | reflexivity].
Defined.

End test_spec.

(** ** Package [lang] *)

Module lang_spec.
Import lang.

Section LangSpec.
Context {data : Type} {Template : Type} {error : Type}.
Context (Localize_ : @LocalizeConfig data -> string * option error).
Context (Parse : string -> string -> Template + error).
Context (Execute : Template -> option data -> string * option error).

(** C10: when the localizer returns an error, [LocalizeKey] and
    [LocalizePluralKey] return a string all the same: what executing the
    fallback, parsed as a template named [key], on the first data argument
    wrote, or the fallback as it is when it does not parse. *)
Theorem localize_error_falls_back
    (key fallback : string) (count : Z) (data_args : list (option data))
    (log : list logline) (ret : string) (e : error) :
  let d0 := first_data data_args in
  let text :=
    match Parse key fallback with
    | inl t => (Execute t d0).1
    | inr _ => fallback
    end in
  (Localize_ {| DefaultMessage := {| ID := key; Other := fallback |};
                PluralCount := None; TemplateData := d0 |} = (ret, Some e) ->
   (LocalizeKey Localize_ Parse Execute key fallback data_args log).1 = text) /\
  (Localize_ {| DefaultMessage := {| ID := key; Other := fallback |};
                PluralCount := Some count; TemplateData := d0 |} = (ret, Some e) ->
   (LocalizePluralKey Localize_ Parse Execute key fallback count data_args log).1 = text).
Proof.
  intros d0 text. split; intros Hl.
  - unfold LocalizeKey. fold d0. rewrite Hl. unfold fallbackWithData, text.
    destruct (Parse key fallback) as [t|pe]; [|reflexivity].
    destruct (Execute t d0). reflexivity.
  - unfold LocalizePluralKey. fold d0. rewrite Hl. unfold fallbackWithData, text.
    destruct (Parse key fallback) as [t|pe]; [|reflexivity].
    destruct (Execute t d0). reflexivity.
Qed.

End LangSpec.

Lemma localize_error_falls_back_witness :
  (LocalizeKey no_message example_Parse example_Execute
     "greeting" "Hello " [Some "Ada"; Some "Bob"] []).1 = "Hello Ada" /\
  (LocalizePluralKey no_message example_Parse example_Execute
     "broken" "{{" 2 [Some "Ada"] []).1 = "{{".
Proof.
  split.
  - apply (localize_error_falls_back no_message example_Parse example_Execute
             "greeting" "Hello " 0 [Some "Ada"; Some "Bob"] [] "" "message not found").
    reflexivity.
  - apply (localize_error_falls_back no_message example_Parse example_Execute
             "broken" "{{" 2 [Some "Ada"] [] "" "message not found").
    reflexivity.
Defined.

(** *** [orderLanguages] *)

(** The bytewise order of strings is a strict total order. *)
Lemma compare_lt_irrefl (a : string) : String.compare a a <> Lt.
Proof.
  assert (String.compare a a = Eq) as ->
    by (apply OrderedTypeEx.String_as_OT.cmp_eq; reflexivity).
  discriminate.
Qed.

Lemma compare_lt_trans (a b c : string) :
  String.compare a b = Lt -> String.compare b c = Lt -> String.compare a c = Lt.
Proof.
  intros Hab Hbc.
  apply OrderedTypeEx.String_as_OT.cmp_lt.
  apply OrderedTypeEx.String_as_OT.lt_trans with b;
    apply OrderedTypeEx.String_as_OT.cmp_lt; assumption.
Qed.

Lemma compare_lt_asym (a b : string) :
  String.compare a b = Lt -> String.compare b a <> Lt.
Proof.
  intros Hab Hba. apply (compare_lt_irrefl a). apply compare_lt_trans with b; assumption.
Qed.

Lemma compare_lt_total (a b : string) :
  a <> b -> String.compare a b = Lt \/ String.compare b a = Lt.
Proof.
  intros Hne. destruct (String.compare a b) eqn:E.
  - apply String.compare_eq_iff in E. contradiction.
  - left. reflexivity.
  - right. rewrite String.compare_antisym, E. reflexivity.
Qed.

Section OrderLanguagesSpec.
Context {Tag : Type} (Tag_String : Tag -> string).
Context (languageOrder : list string).

Local Abbreviation rank := (lang.rank languageOrder).

Lemma order_loop_indices (l : list string) (i : Z) (a b : Tag) (iA iB : Z) :
  order_loop Tag_String l i a b iA iB =
  (last_index l i (Tag_String a) iA, last_index l i (Tag_String b) iB).
Proof.
  revert i iA iB. induction l as [|x l IH]; intros i iA iB; [reflexivity|].
  simpl. apply IH.
Qed.

Lemma last_index_spec (l : list string) (i : Z) (s : string) (acc : Z) :
  (~ In s l /\ last_index l i s acc = acc) \/
  (In s l /\ (i <= last_index l i s acc < i + Z.of_nat (length l))%Z /\
   nth (Z.to_nat (last_index l i s acc - i)) l "" = s).
Proof.
  revert i acc. induction l as [|x l IH]; intros i acc; [left; split; [intros []|reflexivity]|].
  cbn [last_index].
  destruct (IH (i + 1)%Z (if (s =? x)%string then i else acc)) as [[Hn Hr]|(Hin & Hr & Hnth)].
  - rewrite Hr. destruct (s =? x)%string eqn:E.
    + apply String.eqb_eq in E. subst x. right. split; [left; reflexivity|].
      split; [simpl length; lia|]. rewrite Z.sub_diag. reflexivity.
    + apply String.eqb_neq in E. left. split; [|reflexivity].
      intros [Hx|Hx]; [congruence|contradiction].
  - right. split; [right; assumption|]. split; [simpl length; lia|].
    replace (Z.to_nat (last_index l (i + 1) s (if (s =? x)%string then i else acc) - i))
      with (S (Z.to_nat (last_index l (i + 1) s (if (s =? x)%string then i else acc)
                          - (i + 1)))) by lia.
    exact Hnth.
Qed.

Lemma rank_listed (s : string) : In s languageOrder <-> rank s <> (-1)%Z.
Proof.
  unfold lang.rank. destruct (last_index_spec languageOrder 0 s (-1)) as [[Hn Hr]|(Hin & Hr & _)].
  - split; [contradiction|]. intros H. contradiction.
  - split; [lia|]. intros _. assumption.
Qed.

Lemma rank_nth (s : string) :
  rank s <> (-1)%Z ->
  (0 <= rank s < Z.of_nat (length languageOrder))%Z /\
  nth (Z.to_nat (rank s)) languageOrder "" = s.
Proof.
  unfold lang.rank. destruct (last_index_spec languageOrder 0 s (-1)) as [[Hn Hr]|(Hin & Hr & Hn)].
  - intros H. contradiction.
  - intros _. rewrite Z.sub_0_r in Hn. split; [lia|assumption].
Qed.

Lemma rank_inj (s t : string) : rank s <> (-1)%Z -> rank s = rank t -> s = t.
Proof.
  intros Hs Heq. destruct (rank_nth s Hs) as [_ <-].
  assert (Ht : rank t <> (-1)%Z) by congruence.
  destruct (rank_nth t Ht) as [_ <-]. rewrite Heq. reflexivity.
Qed.

Lemma orderLanguages_rank (a b : Tag) :
  orderLanguages Tag_String languageOrder a b =
  if negb (rank (Tag_String a) =? -1)%Z && negb (rank (Tag_String b) =? -1)%Z
  then (rank (Tag_String a) <? rank (Tag_String b))%Z
  else if negb (rank (Tag_String a) =? -1)%Z then true
  else if negb (rank (Tag_String b) =? -1)%Z then false
  else match String.compare (Tag_String a) (Tag_String b) with
       | Lt => true
       | _ => false
       end.
Proof. unfold orderLanguages. rewrite order_loop_indices. reflexivity. Qed.

(** The four cases of [orderLanguages], as propositions. *)
Lemma orderLanguages_cases (a b : Tag) :
  orderLanguages Tag_String languageOrder a b = true <->
  (rank (Tag_String a) <> (-1)%Z /\ rank (Tag_String b) <> (-1)%Z /\
   (rank (Tag_String a) < rank (Tag_String b))%Z) \/
  (rank (Tag_String a) <> (-1)%Z /\ rank (Tag_String b) = (-1)%Z) \/
  (rank (Tag_String a) = (-1)%Z /\ rank (Tag_String b) = (-1)%Z /\
   String.compare (Tag_String a) (Tag_String b) = Lt).
Proof.
  rewrite orderLanguages_rank.
  destruct (rank (Tag_String a) =? -1)%Z eqn:Ea, (rank (Tag_String b) =? -1)%Z eqn:Eb;
    cbn [negb andb].
  - apply Z.eqb_eq in Ea, Eb.
    destruct (String.compare (Tag_String a) (Tag_String b)) eqn:Ec.
    + split; [discriminate|].
      intros [(? & _)|[(? & _)|(_ & _ & ?)]]; [contradiction|contradiction|discriminate].
    + split; [intros _; right; right; auto|reflexivity].
    + split; [discriminate|].
      intros [(? & _)|[(? & _)|(_ & _ & ?)]]; [contradiction|contradiction|discriminate].
  - apply Z.eqb_eq in Ea. apply Z.eqb_neq in Eb.
    split; [discriminate|].
    intros [(? & _)|[(? & _)|(_ & ? & _)]]; contradiction.
  - apply Z.eqb_neq in Ea. apply Z.eqb_eq in Eb.
    split; [intros _; right; left; auto|reflexivity].
  - apply Z.eqb_neq in Ea, Eb. rewrite Z.ltb_lt.
    split; [intros ?; left; auto|].
    intros [(_ & _ & ?)|[(_ & ?)|(? & _)]]; [assumption|contradiction|contradiction].
Qed.

(** X17: [orderLanguages] is a strict total order on the strings of the
    tags, whatever [languageOrder] holds: no tag comes before itself, two
    tags never come before each other, the relation is transitive, and of
    two tags with different strings one comes before the other.  It is
    therefore a valid [less] for [sort.SliceStable]. *)
Theorem orderLanguages_strict_total_order :
  (forall a, orderLanguages Tag_String languageOrder a a = false) /\
  (forall a b, orderLanguages Tag_String languageOrder a b = true ->
               orderLanguages Tag_String languageOrder b a = false) /\
  (forall a b c, orderLanguages Tag_String languageOrder a b = true ->
                 orderLanguages Tag_String languageOrder b c = true ->
                 orderLanguages Tag_String languageOrder a c = true) /\
  (forall a b, Tag_String a <> Tag_String b ->
               orderLanguages Tag_String languageOrder a b = true \/
               orderLanguages Tag_String languageOrder b a = true).
Proof.
  split; [|split; [|split]].
  - intros a. apply not_true_is_false. rewrite orderLanguages_cases.
    intros [(_ & _ & ?)|[(? & ?)|(_ & _ & ?)]]; [lia|congruence|].
    exact (compare_lt_irrefl _ H).
  - intros a b Hab. apply not_true_is_false. rewrite orderLanguages_cases in *.
    intros Hba.
    destruct Hab as [(? & ? & ?)|[(? & ?)|(? & ? & Hc)]],
             Hba as [(? & ? & ?)|[(? & ?)|(? & ? & Hc')]]; try lia; try congruence.
    exact (compare_lt_asym _ _ Hc Hc').
  - intros a b c Hab Hbc. rewrite orderLanguages_cases in *.
    destruct Hab as [(? & ? & ?)|[(? & ?)|(? & ? & Hc)]],
             Hbc as [(? & ? & ?)|[(? & ?)|(? & ? & Hc')]]; try congruence.
    + left. repeat split; [assumption|assumption|lia].
    + right; left. split; assumption.
    + right; left. split; assumption.
    + right; right. repeat split; try assumption.
      exact (compare_lt_trans _ _ _ Hc Hc').
  - intros a b Hne. rewrite !orderLanguages_cases.
    destruct (Z.eq_dec (rank (Tag_String a)) (-1)%Z) as [Ha|Ha],
             (Z.eq_dec (rank (Tag_String b)) (-1)%Z) as [Hb|Hb].
    + destruct (compare_lt_total _ _ Hne); [left|right]; right; right; auto.
    + right. right; left. auto.
    + left. right; left. auto.
    + assert (rank (Tag_String a) <> rank (Tag_String b))
        by (intros Heq; apply Hne, rank_inj; assumption).
      destruct (Z.lt_ge_cases (rank (Tag_String a)) (rank (Tag_String b)));
        [left|right]; left; repeat split; try assumption; lia.
Qed.

(** X18: the languages named in [languageOrder] come first.  A tag whose
    string is listed comes before every tag whose string is not; two
    unlisted tags are ordered alphabetically (bytewise); and when
    [languageOrder] has no duplicates, two listed tags are ordered as their
    strings are in [languageOrder]. *)
Theorem orderLanguages_priorities (a b : Tag) :
  (In (Tag_String a) languageOrder -> ~ In (Tag_String b) languageOrder ->
   orderLanguages Tag_String languageOrder a b = true /\
   orderLanguages Tag_String languageOrder b a = false) /\
  (~ In (Tag_String a) languageOrder -> ~ In (Tag_String b) languageOrder ->
   (orderLanguages Tag_String languageOrder a b = true <->
    String.compare (Tag_String a) (Tag_String b) = Lt)) /\
  (NoDup languageOrder ->
   forall i j : nat,
     languageOrder !! i = Some (Tag_String a) ->
     languageOrder !! j = Some (Tag_String b) ->
     (orderLanguages Tag_String languageOrder a b = true <-> (i < j)%nat)).
Proof.
  split; [|split].
  - intros Ha Hb. apply rank_listed in Ha.
    assert (Hb' : rank (Tag_String b) = (-1)%Z).
    { destruct (Z.eq_dec (rank (Tag_String b)) (-1)%Z) as [E|E]; [assumption|].
      apply rank_listed in E. contradiction. }
    split; [apply orderLanguages_cases; right; left; auto|].
    apply not_true_is_false. rewrite orderLanguages_cases.
    intros [(? & _)|[(? & _)|(_ & ? & _)]]; contradiction.
  - intros Ha Hb.
    assert (Ha' : rank (Tag_String a) = (-1)%Z).
    { destruct (Z.eq_dec (rank (Tag_String a)) (-1)%Z) as [E|E]; [assumption|].
      apply rank_listed in E. contradiction. }
    assert (Hb' : rank (Tag_String b) = (-1)%Z).
    { destruct (Z.eq_dec (rank (Tag_String b)) (-1)%Z) as [E|E]; [assumption|].
      apply rank_listed in E. contradiction. }
    rewrite orderLanguages_cases. split.
    + intros [(? & _)|[(? & _)|(_ & _ & ?)]]; [congruence|congruence|assumption].
    + intros Hc. right; right. auto.
  - intros Hnd i j Hi Hj.
    assert (Hrank : forall s (k : nat), languageOrder !! k = Some s -> rank s = Z.of_nat k).
    { intros s k Hk.
      assert (Hin : rank s <> (-1)%Z)
        by (apply rank_listed, list_elem_of_In, list_elem_of_lookup; eauto).
      destruct (rank_nth s Hin) as [Hr Hn].
      assert (Hl : languageOrder !! Z.to_nat (rank s) = Some s).
      { destruct (nth_lookup_or_length languageOrder (Z.to_nat (rank s)) "") as [Hl|Hl];
          [rewrite Hl, Hn; reflexivity | lia]. }
      pose proof (NoDup_lookup _ _ _ _ Hnd Hl Hk). lia. }
    rewrite orderLanguages_cases, (Hrank _ _ Hi), (Hrank _ _ Hj). split.
    + intros [(_ & _ & ?)|[(_ & ?)|(? & _)]]; lia.
    + intros Hlt. left. lia.
Qed.

End OrderLanguagesSpec.

Lemma orderLanguages_strict_total_order_witness :
  orderLanguages (fun s : string => s) languageOrder_init "en" "fr" = true /\
  orderLanguages (fun s : string => s) languageOrder_init "fr" "en" = false.
Proof.
  destruct (orderLanguages_strict_total_order (fun s : string => s) languageOrder_init)
    as (_ & Hasym & Htrans & _).
  assert (H : orderLanguages (fun s : string => s) languageOrder_init "en" "fr" = true)
    by (apply (Htrans "en" "de" "fr"); reflexivity).
  split; [exact H | apply Hasym; exact H].
Defined.

Lemma orderLanguages_priorities_witness :
  orderLanguages (fun s : string => s) ["en"; "de"] "de" "cs" = true /\
  (orderLanguages (fun s : string => s) ["en"; "de"] "en" "de" = true <-> (0 < 1)%nat).
Proof.
  destruct (orderLanguages_priorities (fun s : string => s) ["en"; "de"] "de" "cs")
    as (H1 & _).
  destruct (orderLanguages_priorities (fun s : string => s) ["en"; "de"] "en" "de")
    as (_ & _ & H3).
  split.
  - apply H1; [right; left; reflexivity|].
    intros [H|[H|[]]]; discriminate.
  - apply H3; [|reflexivity|reflexivity].
    apply (bool_decide_unpack _). exact I.
Defined.

(** *** Logging, and the wrappers [Localize] and [LocalizePlural] *)

Section LoggingSpec.
Context {data : Type} {Template : Type} {error : Type}.
Context (Localize_ : @LocalizeConfig data -> string * option error).
Context (Parse : string -> string -> Template + error).
Context (Execute : Template -> option data -> string * option error).

Lemma fallbackWithData_log (key fallback : string) (d : option data) (log : list logline) :
  (fallbackWithData Parse Execute key fallback d log).2 =
  match Parse key fallback with
  | inl _ => log
  | inr _ => log ++ [Println "Could not parse fallback template"]
  end.
Proof.
  unfold fallbackWithData. destruct (Parse key fallback) as [t|pe]; [|reflexivity].
  destruct (Execute t d). reflexivity.
Qed.

(** X19: what [LocalizeKey] and [LocalizePluralKey] log.  When the
    localizer succeeds its translation is returned as it is and nothing is
    logged.  When it fails, "Translation failure" is logged with the error;
    the only further line is "Could not parse fallback template", when the
    fallback does not parse; an error of [Execute] on the fallback is
    dropped without a trace. *)
Theorem localize_log_lines
    (key fallback : string) (count : option Z) (data_args : list (option data))
    (log : list logline) :
  let d0 := first_data data_args in
  let cfg := {| DefaultMessage := {| ID := key; Other := fallback |};
                PluralCount := count; TemplateData := d0 |} in
  let run :=
    match count with
    | None => LocalizeKey Localize_ Parse Execute key fallback data_args log
    | Some n => LocalizePluralKey Localize_ Parse Execute key fallback n data_args log
    end in
  (forall ret, Localize_ cfg = (ret, None) -> run = (ret, log)) /\
  (forall ret e, Localize_ cfg = (ret, Some e) ->
     run.2 = log ++ LogError "Translation failure" e
                    :: match Parse key fallback with
                       | inl _ => []
                       | inr _ => [Println "Could not parse fallback template"]
                       end).
Proof.
  intros d0 cfg run. split.
  - intros ret Hl. unfold run, cfg in *.
    destruct count as [n|]; [unfold LocalizePluralKey|unfold LocalizeKey];
      fold d0; rewrite Hl; reflexivity.
  - intros ret e Hl. unfold run, cfg in *.
    destruct count as [n|]; [unfold LocalizePluralKey|unfold LocalizeKey];
      fold d0; rewrite Hl, fallbackWithData_log;
      destruct (Parse key fallback); [|rewrite <- app_assoc| |rewrite <- app_assoc];
      reflexivity.
Qed.

(** X20: [Localize] and [LocalizePlural] look the message up under the
    text itself: the text is both the message ID and the fallback, so that
    without a translation the result is the text with the template data
    applied, or the text as it is when it is not a valid template. *)
Theorem Localize_uses_the_text_as_key
    (text : string) (count : Z) (data_args : list (option data))
    (log : list logline) (ret : string) (e : error) :
  let d0 := first_data data_args in
  let shown :=
    match Parse text text with
    | inl t => (Execute t d0).1
    | inr _ => text
    end in
  (Localize_ {| DefaultMessage := {| ID := text; Other := text |};
                PluralCount := None; TemplateData := d0 |} = (ret, Some e) ->
   (Localize Localize_ Parse Execute text data_args log).1 = shown) /\
  (Localize_ {| DefaultMessage := {| ID := text; Other := text |};
                PluralCount := Some count; TemplateData := d0 |} = (ret, Some e) ->
   (LocalizePlural Localize_ Parse Execute text count data_args log).1 = shown) /\
  (Localize_ {| DefaultMessage := {| ID := text; Other := text |};
                PluralCount := None; TemplateData := d0 |} = (ret, None) ->
   Localize Localize_ Parse Execute text data_args log = (ret, log)).
Proof.
  intros d0 shown. split; [|split]; intros Hl.
  - unfold Localize, LocalizeKey. fold d0. rewrite Hl. unfold fallbackWithData, shown.
    destruct (Parse text text) as [t|pe]; [|reflexivity].
    destruct (Execute t d0). reflexivity.
  - unfold LocalizePlural, LocalizePluralKey. fold d0. rewrite Hl.
    unfold fallbackWithData, shown.
    destruct (Parse text text) as [t|pe]; [|reflexivity].
    destruct (Execute t d0). reflexivity.
  - unfold Localize, LocalizeKey. fold d0. rewrite Hl. reflexivity.
Qed.

End LoggingSpec.

Lemma localize_log_lines_witness :
  (LocalizeKey no_message example_Parse example_Execute "broken" "{{" [] []).2 =
  [LogError "Translation failure" "message not found";
   Println "Could not parse fallback template"] /\
  LocalizeKey found_message example_Parse example_Execute "greeting" "Hello" [] [] =
  ("Bonjour", []).
Proof.
  destruct (localize_log_lines no_message example_Parse example_Execute "broken" "{{"
              None [] []) as [_ H2].
  destruct (localize_log_lines found_message example_Parse example_Execute "greeting"
              "Hello" None [] []) as [H1 _].
  split.
  - apply (H2 "" "message not found"). reflexivity.
  - apply (H1 "Bonjour"). reflexivity.
Defined.

Lemma Localize_uses_the_text_as_key_witness :
  (Localize no_message example_Parse example_Execute "Hello " [Some "Ada"] []).1
  = "Hello Ada".
Proof.
  apply (Localize_uses_the_text_as_key no_message example_Parse example_Execute
           "Hello " 0 [Some "Ada"] [] "" "message not found").
  reflexivity.
Defined.

End lang_spec.
